(** * Label placement and occlusion engine (src/core/src/labels)

    A shallow embedding of [labels.cpp] ([Labels::labelComparator],
    [Labels::handleOcclusions], [Labels::withinRepeatDistance], the zoom step
    and the mesh update of [Labels::updateLabelSet]) and of [textLabel.cpp]
    ([TextLabel::TextLabel], [updateScreenTransform], [obbs],
    [addVerticesToMesh]).

    Scalars ([float]) are modelled as exact rationals [Q]; the integer
    types of the vertex data as [Z] with their wrap-around written out.
    Label pointers are natural numbers indexing a label store
    ([nat -> Label]); pointer comparison is comparison of these numbers. *)

From Stdlib Require Import QArith Qround ZArith Bool List Lia.
Import ListNotations.

Open Scope Q_scope.

Definition Qltb (a b : Q) : bool := negb (Qle_bool b a).
Definition Qleb (a b : Q) : bool := Qle_bool a b.
Definition Qeqb (a b : Q) : bool := Qeq_bool a b.

(** ** Geometry values *)

Record vec2 := V2 { vx : Q; vy : Q }.

Definition vadd (a b : vec2) : vec2 := V2 (vx a + vx b) (vy a + vy b).
Definition vsub (a b : vec2) : vec2 := V2 (vx a - vx b) (vy a - vy b).
Definition vscale (a : vec2) (s : Q) : vec2 := V2 (vx a * s) (vy a * s).
Definition vmul (a b : vec2) : vec2 := V2 (vx a * vx b) (vy a * vy b).
Definition vdiv (a : vec2) (s : Q) : vec2 := V2 (vx a / s) (vy a / s).
(** [glm::vec2 + float]: the scalar is added to both components. *)
Definition vadds (a : vec2) (s : Q) : vec2 := V2 (vx a + s) (vy a + s).

(** [glm::distance2]. *)
Definition distance2 (a b : vec2) : Q :=
  (vx a - vx b) * (vx a - vx b) + (vy a - vy b) * (vy a - vy b).

(** Modelled from the spec: [rotateBy] (util/geom.h, not under src), the
    rotation of [v] by the unit complex number [r]. *)
Definition rotateBy (v r : vec2) : vec2 :=
  V2 (vx v * vx r - vy v * vy r) (vx v * vy r + vy v * vx r).

(** Modelled from the spec: [AABB] ("half-open rectangle overlap"). *)
Record AABB := MkAABB { amin : vec2; amax : vec2 }.

Definition aabb_intersect (a b : AABB) : bool :=
  Qltb (vx (amin a)) (vx (amax b)) && Qltb (vx (amin b)) (vx (amax a)) &&
  Qltb (vy (amin a)) (vy (amax b)) && Qltb (vy (amin b)) (vy (amax a)).

(** Modelled from the spec: [OBB], built as in
    [OBB(center, axis, width, height)]; the quad is spanned by the unit axis
    and its perpendicular, [width] and [height] being the full side
    lengths. *)
Record OBB := MkOBB { centroid : vec2; axis : vec2; obb_w : Q; obb_h : Q }.

Definition perp (a : vec2) : vec2 := V2 (- vy a) (vx a).

Definition quad (o : OBB) : list vec2 :=
  let x := vscale (axis o) (obb_w o * (1#2)) in
  let y := vscale (perp (axis o)) (obb_h o * (1#2)) in
  let c := centroid o in
  [vsub (vsub c x) y; vsub (vadd c x) y; vadd (vadd c x) y; vadd (vsub c x) y].

Definition Qminb (a b : Q) : Q := if Qle_bool a b then a else b.
Definition Qmaxb (a b : Q) : Q := if Qle_bool a b then b else a.

Definition list_min (d : Q) (l : list Q) : Q := fold_left Qminb l d.
Definition list_max (d : Q) (l : list Q) : Q := fold_left Qmaxb l d.

Definition getExtent (o : OBB) : AABB :=
  let xs := map vx (quad o) in
  let ys := map vy (quad o) in
  MkAABB (V2 (list_min (vx (centroid o)) xs) (list_min (vy (centroid o)) ys))
         (V2 (list_max (vx (centroid o)) xs) (list_max (vy (centroid o)) ys)).

Definition dot (a b : vec2) : Q := vx a * vx b + vy a * vy b.

(** Separating axis test over the two axes of each box. *)
Definition separated_on (n : vec2) (a b : OBB) : bool :=
  let pa := map (dot n) (quad a) in
  let pb := map (dot n) (quad b) in
  let ca := dot n (centroid a) in
  let cb := dot n (centroid b) in
  Qltb (list_max ca pa) (list_min cb pb) || Qltb (list_max cb pb) (list_min ca pa).

Definition obb_intersect (a b : OBB) : bool :=
  negb (existsb (fun n => separated_on n a b)
                [axis a; perp (axis a); axis b; perp (axis b)]).

(** ** Labels *)

Inductive LabelType := point | line | curved | debug.

Definition LabelType_eqb (a b : LabelType) : bool :=
  match a, b with
  | point, point | line, line | curved, curved | debug, debug => true
  | _, _ => false
  end.

Inductive State := none | fading_in | visible | sleep | fading_out | dead.

Definition State_eqb (a b : State) : bool :=
  match a, b with
  | none, none | fading_in, fading_in | visible, visible
  | sleep, sleep | fading_out, fading_out | dead, dead => true
  | _, _ => false
  end.

(** [Label::visibleState]. *)
Definition visibleState (s : State) : bool :=
  match s with
  | fading_in | visible | sleep | fading_out => true
  | none | dead => false
  end.

Inductive Anchor := center | top | bottom | left | right
                  | top_left | top_right | bottom_left | bottom_right.

(** Modelled from the spec: [LabelProperty::anchorDirection], the unit
    direction of an anchor in screen space (y down). *)
Definition anchorDirection (a : Anchor) : vec2 :=
  match a with
  | center => V2 0 0
  | top => V2 0 (-1)
  | bottom => V2 0 1
  | left => V2 (-1) 0
  | right => V2 1 0
  | top_left => V2 (-1) (-1)
  | top_right => V2 1 (-1)
  | bottom_left => V2 (-1) 1
  | bottom_right => V2 1 1
  end.

Record Options := MkOptions {
  priority : N;
  anchors : list Anchor;
  offset : vec2;
  buffer : vec2;
  repeatGroup : N;
  repeatDistance : Q;
  required : bool;
  paramHash : N
}.

Definition set_repeatDistance (d : Q) (o : Options) : Options :=
  MkOptions (priority o) (anchors o) (offset o) (buffer o) (repeatGroup o) d
            (required o) (paramHash o).

(** [Range {start, length}], a slice of an arena. *)
Record Range := MkRange { r_start : nat; r_length : nat }.

(** [TextLabelProperty::Align]: the index of a text range. *)
Inductive Align := Aright | Aleft | Acenter | Anone.

Definition align_index (a : Align) : nat :=
  match a with Aright => 0 | Aleft => 1 | Acenter => 2 | Anone => 0 end.

(** [TextLabelProperty::alignFromAnchor] (textLabelProperty.cpp, not under
    src; the spec does not describe text alignment): text is aligned away
    from the side of the anchor. No result below depends on this choice. *)
Definition alignFromAnchor (a : Anchor) : Align :=
  match a with
  | top_left | left | bottom_left => Aright
  | top_right | right | bottom_right => Aleft
  | top | bottom | center => Acenter
  end.

(** A glyph quad of [TextLabels::quads]: atlas index and four vertices with
    [i16vec2] position and [u16vec2] texture coordinate. *)
Record GlyphVertex := MkGlyphVertex { gv_pos : Z * Z; gv_uv : Z * Z }.
Record GlyphQuad := MkGlyphQuad { gq_atlas : nat; gq_quad : list GlyphVertex }.

Record FontAttrib := MkFontAttrib {
  fa_selectionColor : Z; fa_fill : Z; fa_stroke : Z; fa_fontScale : Q
}.

(** The fields of a [TextLabel] besides its [Label] base. [t_quads] is the
    [quads] vector of the shared [TextLabels] object. *)
Record TextData := MkTextData {
  t_world0 : vec2;
  t_world1 : vec2;
  t_textRanges : list Range;
  t_textRangeIndex : nat;
  t_fontAttrib : FontAttrib;
  t_preferedAlignment : Align;
  t_quads : list GlyphQuad
}.

(** The variant of a label: a [TextLabel] (point or line, the code of
    textLabel.cpp), a point label of the point style (an icon; spriteLabel.cpp,
    not under src) or a curved label. Modelled from the spec: a curved label
    emits one OBB per glyph cluster, computed from its own sampled
    polyline (curvedLabel.cpp, not under src); they are kept with the label,
    together with its [candidatePriority()]. *)
Inductive Variant :=
  | TextV (t : TextData)
  | SpriteV
  | CurvedV (cobbs : list OBB) (candidatePriority : Q).

Record Label := MkLabel {
  l_variant : Variant;
  l_type : LabelType;
  l_options : Options;
  l_dim : vec2;
  l_parent : option nat;
  l_state : State;
  l_alpha : Q;
  l_occluded : bool;
  l_occludedLastFrame : bool;
  l_anchorIndex : nat;
  l_anchor : vec2;
  l_screenCenter : vec2
}.

(** [Label::hash()], the content hash carried by the options. *)
Definition hash (l : Label) : N := paramHash (l_options l).

Definition set_occluded (b : bool) (l : Label) : Label :=
  MkLabel (l_variant l) (l_type l) (l_options l) (l_dim l) (l_parent l)
          (l_state l) (l_alpha l) b (l_occludedLastFrame l) (l_anchorIndex l)
          (l_anchor l) (l_screenCenter l).

Definition set_anchor (i : nat) (a : vec2) (l : Label) : Label :=
  MkLabel (l_variant l) (l_type l) (l_options l) (l_dim l) (l_parent l)
          (l_state l) (l_alpha l) (l_occluded l) (l_occludedLastFrame l) i
          a (l_screenCenter l).


Definition set_variant (v : Variant) (l : Label) : Label :=
  MkLabel v (l_type l) (l_options l) (l_dim l) (l_parent l)
          (l_state l) (l_alpha l) (l_occluded l) (l_occludedLastFrame l) (l_anchorIndex l)
          (l_anchor l) (l_screenCenter l).

Definition set_screenCenter (c : vec2) (l : Label) : Label :=
  MkLabel (l_variant l) (l_type l) (l_options l) (l_dim l) (l_parent l)
          (l_state l) (l_alpha l) (l_occluded l) (l_occludedLastFrame l) (l_anchorIndex l)
          (l_anchor l) c.

(** [glm::length2]. *)
Definition length2 (v : vec2) : Q := vx v * vx v + vy v * vy v.

(** [TextLabel::worldLineLength2]; a curved label has the [Label] default 0. *)
Definition worldLineLength2 (l : Label) : Q :=
  match l_variant l with
  | TextV t => if LabelType_eqb (l_type l) line then length2 (vsub (t_world0 t) (t_world1 t)) else 0
  | SpriteV | CurvedV _ _ => 0
  end.

(** The label objects, addressed by pointer. *)
Definition Store := nat -> Label.

Definition store_set (s : Store) (k : nat) (v : Label) : Store :=
  fun j => if Nat.eqb j k then v else s j.

(** ** Placement engine records *)

Record TileID := MkTileID { tx : Z; ty : Z; tz : Z }.
Record Tile := MkTile { tileID : TileID }.

(** [LabelEntry {label, tile, proxy, priority, transform, obbs}];
    [le_transform] holds the slice of the screen-transform arena of the
    entry (position then rotation for point and line labels). *)
Record LabelEntry := MkEntry {
  le_label : nat;
  le_tile : option Tile;
  le_proxy : bool;
  le_priority : N;
  le_transform : list vec2;
  le_obbs : Range
}.

(** ** [Labels::labelComparator] *)

Section Comparator.

Variable store : Store.

Definition labelComparator (a b : LabelEntry) : bool :=
  if negb (Bool.eqb (le_proxy a) (le_proxy b)) then le_proxy b
  else if negb (N.eqb (le_priority a) (le_priority b)) then N.ltb (le_priority a) (le_priority b)
  else match le_tile a, le_tile b with
  | None, _ | _, None => match le_tile a with Some _ => true | None => false end
  | Some ta, Some tb =>
    if negb (Z.eqb (tz (tileID ta)) (tz (tileID tb))) then Z.gtb (tz (tileID ta)) (tz (tileID tb))
    else
    let l1 := store (le_label a) in
    let l2 := store (le_label b) in
    if negb (Bool.eqb (l_occludedLastFrame l1) (l_occludedLastFrame l2)) then l_occludedLastFrame l2
    else if negb (Bool.eqb (visibleState (l_state l1)) (visibleState (l_state l2))) then visibleState (l_state l1)
    else if LabelType_eqb (l_type l1) line && LabelType_eqb (l_type l2) line then
      Qltb (worldLineLength2 l2) (worldLineLength2 l1)
    else if negb (N.eqb (hash l1) (hash l2)) then N.ltb (hash l1) (hash l2)
    else match l_type l1, l_variant l1, l_type l2, l_variant l2 with
    | curved, CurvedV _ cp1, curved, CurvedV _ cp2 => Qltb cp2 cp1
    | _, _, _, _ => Nat.ltb (le_label a) (le_label b)
    end
  end.

End Comparator.

(** A strict weak order, as [std::stable_sort] requires of its comparator. *)
Definition strict_weak_order {A} (lt : A -> A -> bool) : Prop :=
  (forall a, lt a a = false) /\
  (forall a b c, lt a b = true -> lt b c = true -> lt a c = true) /\
  (forall a b c, lt a b = false -> lt b a = false ->
                 lt b c = false -> lt c b = false ->
                 lt a c = false /\ lt c a = false).

Definition set_options (o : Options) (l : Label) : Label :=
  MkLabel (l_variant l) (l_type l) o (l_dim l) (l_parent l)
          (l_state l) (l_alpha l) (l_occluded l) (l_occludedLastFrame l) (l_anchorIndex l)
          (l_anchor l) (l_screenCenter l).

(** ** textLabel.cpp *)

Definition set_textRangeIndex (i : nat) (t : TextData) : TextData :=
  MkTextData (t_world0 t) (t_world1 t) (t_textRanges t) i (t_fontAttrib t)
             (t_preferedAlignment t) (t_quads t).

Definition Align_eqb (a b : Align) : bool :=
  match a, b with
  | Aright, Aright | Aleft, Aleft | Acenter, Acenter | Anone, Anone => true
  | _, _ => false
  end.

Definition range_at (rs : list Range) (i : nat) : Range := nth i rs (MkRange 0 0).

(** [TextLabel::applyAnchor]; [parentDim] is [m_parent->dimension()] when
    the label has a parent. Modelled from the spec for the other variants: a
    point sprite takes the same offset [direction(a) * (dim + parentDim) *
    0.5]; a curved label is not anchored. *)
Definition applyAnchor (parentDim : option vec2) (a : Anchor) (l : Label) : Label :=
  match l_variant l with
  | TextV t =>
    let idx := if Align_eqb (t_preferedAlignment t) Anone
               then align_index (alignFromAnchor a)
               else align_index (t_preferedAlignment t) in
    let idx := if Nat.eqb (r_length (range_at (t_textRanges t) idx)) 0 then 0%nat else idx in
    let off := match parentDim with Some pd => vadd (l_dim l) pd | None => l_dim l end in
    let anc := vscale (vmul (anchorDirection a) off) (1#2) in
    set_anchor (l_anchorIndex l) anc (set_variant (TextV (set_textRangeIndex idx t)) l)
  | SpriteV =>
    let off := match parentDim with Some pd => vadd (l_dim l) pd | None => l_dim l end in
    set_anchor (l_anchorIndex l) (vscale (vmul (anchorDirection a) off) (1#2)) l
  | CurvedV _ _ => l
  end.

(** Modelled from the spec: the [Label(dim, type, options)] base
    constructor (label.cpp, not under src): a new label is in state [none],
    fully transparent, not occluded, at anchor index 0, without parent. *)
Definition Label_ctor (v : Variant) (dim : vec2) (type : LabelType) (o : Options) : Label :=
  MkLabel v type o dim None none 0 false false 0%nat (V2 0 0) (V2 0 0).

(** [TextLabel::TextLabel]. *)
Definition TextLabel_ctor (w0 w1 : vec2) (type : LabelType) (o : Options)
           (attrib : FontAttrib) (dim : vec2) (quads : list GlyphQuad)
           (textRanges : list Range) (preferedAlignment : Align) : Label :=
  let l := Label_ctor (TextV (MkTextData w0 w1 textRanges 0 attrib preferedAlignment quads))
                      dim type o in
  let l := set_options (set_repeatDistance 0 (l_options l)) l in
  applyAnchor None (nth 0 (anchors (l_options l)) center) l.

Section ScreenTransform.

(** The projection of a world point by the frame's [mvp] and viewport, as
    [worldToScreenSpace] (util/geom.h, not under src) computes it, with the
    flag it reports when the point is clipped; and [glm::length]. Modelled
    from the spec: the caller's [clipped] flag, passed by reference, is set
    when a projected point is clipped and left as it is otherwise. *)
Variable worldToScreenSpace : vec2 -> vec2 * bool.
Variable length : vec2 -> Q.

(** [TextLabel::updateScreenTransform]: the result, the label with its new
    [m_screenCenter], and the points pushed to the screen transform. It is
    the function of text labels; the other variants are outside
    textLabel.cpp and report failure here. *)
Definition updateScreenTransform (l : Label) : bool * Label * list vec2 :=
  match l_variant l with
  | SpriteV | CurvedV _ _ => (false, l, [])
  | TextV t =>
    let clipped := false in
    match l_type l with
    | point | debug =>
      let p0 := t_world0 t in
      let '(screenPosition, c) := worldToScreenSpace p0 in
      let clipped := clipped || c in
      if clipped then (false, l, []) else
      let l := set_screenCenter screenPosition l in
      (true, l, [vadd screenPosition (offset (l_options l)); V2 1 0])
    | line =>
      let rotation := V2 1 0 in
      let p0 := t_world0 t in
      let p2 := t_world1 t in
      let '(ap0, c0) := worldToScreenSpace p0 in
      let clipped := clipped || c0 in
      let '(ap2, c2) := worldToScreenSpace p2 in
      let clipped := clipped || c2 in
      if clipped then (false, l, []) else
      let len := length (vsub ap2 ap0) in
      let minLength := vx (l_dim l) * (7#10) in
      if Qltb len minLength then (false, l, []) else
      let p1 := vscale (vadd p2 p0) (1#2) in
      let '(screenPosition, _) := worldToScreenSpace p1 in
      let rotation := vdiv (if Qleb (vx ap0) (vx ap2) then vsub ap2 ap0 else vsub ap0 ap2) len in
      let rotation := V2 (vx rotation) (- vy rotation) in
      let l := set_screenCenter screenPosition l in
      (true, l, [vadd screenPosition (rotateBy (offset (l_options l)) rotation); rotation])
    | curved => (false, l, [])
    end
  end.

End ScreenTransform.

Section Obbs.

(** [Label::activation_distance_threshold], a constant of label.cpp (not
    under src) whose value the spec does not give. *)
Variable activation_distance_threshold : Q.

(** [PointTransform::position] and [rotation]: the first two points of the
    screen transform slice. *)
Definition pt_position (tr : list vec2) : vec2 := nth 0 tr (V2 0 0).
Definition pt_rotation (tr : list vec2) : vec2 := nth 1 tr (V2 0 0).

(** [TextLabel::obbs]: the OBBs appended to the label's slice. *)
Definition textLabel_obbs (l : Label) (tr : list vec2) : list OBB :=
  let dim := vsub (l_dim l) (buffer (l_options l)) in
  let dim := if l_occludedLastFrame l then vadds dim activation_distance_threshold else dim in
  let dim := if State_eqb (l_state l) dead then vadds dim (-4) else dim in
  let rotation := pt_rotation tr in
  [MkOBB (vadd (pt_position tr) (l_anchor l)) (V2 (vx rotation) (- vy rotation)) (vx dim) (vy dim)].

(** Modelled from the spec ("Point label ... [obbs]: emits one OBB sized
    [dim - buffer] (or [dim + activation_distance_threshold] if
    [occludedLastFrame]), centered at [position + m_anchor], rotated by the
    stored rotation"): [SpriteLabel::obbs], not under src. *)
Definition spriteLabel_obbs (l : Label) (tr : list vec2) : list OBB :=
  let dim := if l_occludedLastFrame l then vadds (l_dim l) activation_distance_threshold
             else vsub (l_dim l) (buffer (l_options l)) in
  [MkOBB (vadd (pt_position tr) (l_anchor l)) (pt_rotation tr) (vx dim) (vy dim)].

(** [Label::obbs], dispatched on the variant. *)
Definition label_obbs (l : Label) (tr : list vec2) : list OBB :=
  match l_variant l with
  | TextV _ => textLabel_obbs l tr
  | SpriteV => spriteLabel_obbs l tr
  | CurvedV os _ => os
  end.

End Obbs.

(** ** Vertex data *)

(** Two's complement wrap-around to 16 bits. *)
Definition wrap16 (z : Z) : Z := ((z + 32768) mod 65536 - 32768)%Z.

(** Conversion of a float to an integer type: truncation toward zero (an
    out-of-range conversion is undefined in C++; the model wraps it). *)
Definition Qtrunc (q : Q) : Z := Z.quot (Qnum q) (Zpos (Qden q)).
Definition f2i16 (q : Q) : Z := wrap16 (Qtrunc q).
Definition f2u16 (q : Q) : Z := (Qtrunc q mod 65536)%Z.

(** [i16vec2 + i16vec2]. *)
Definition iadd (a b : Z * Z) : Z * Z := (wrap16 (fst a + fst b), wrap16 (snd a + snd b)).

Record TextVertexState := MkTVState {
  ts_selectionColor : Z; ts_fill : Z; ts_stroke : Z; ts_alpha : Z; ts_fontScale : Z
}.

Record TextVertex := MkTextVertex { tv_pos : Z * Z; tv_uv : Z * Z; tv_state : TextVertexState }.

(** The meshes of the style: the quads pushed by [pushQuad], in order, each
    with the atlas of the mesh it went to. *)
Definition Meshes := list (nat * list TextVertex).

Definition position_scale : Q := 4.
Definition alpha_scale : Q := 65535.

Definition vertex_inside (mn mx : Z * Z) (p : Z * Z) : bool :=
  (fst mn <? fst p)%Z && (fst p <? fst mx)%Z && (snd mn <? snd p)%Z && (snd p <? snd mx)%Z.

(** [TextLabel::addVerticesToMesh]: the quads it pushes. The vertices of
    sprites and curved labels (outside textLabel.cpp, and without a layout in
    the spec) are not modelled: they push nothing here. *)
Definition addVerticesToMesh (l : Label) (tr : list vec2) (screenSize : vec2) : Meshes :=
  match l_variant l with
  | SpriteV | CurvedV _ _ => []
  | TextV t =>
  if negb (visibleState (l_state l)) then [] else
  let fa := t_fontAttrib t in
  let state := MkTVState (fa_selectionColor fa) (fa_fill fa) (fa_stroke fa)
                         (f2u16 (l_alpha l * alpha_scale)) (f2u16 (fa_fontScale fa)) in
  let rng := range_at (t_textRanges t) (t_textRangeIndex t) in
  let qs := firstn (r_length rng) (skipn (r_start rng) (t_quads t)) in
  let rotation := pt_rotation tr in
  let rotate := negb (Qeqb (vx rotation) 1) in
  let screenPosition := vadd (pt_position tr) (l_anchor l) in
  let sp := (f2i16 (vx screenPosition * position_scale), f2i16 (vy screenPosition * position_scale)) in
  let mn := (f2i16 (- vy (l_dim l) * position_scale), f2i16 (- vy (l_dim l) * position_scale)) in
  let mx := (f2i16 ((vx screenSize + vy (l_dim l)) * position_scale),
             f2i16 ((vy screenSize + vy (l_dim l)) * position_scale)) in
  flat_map (fun q =>
    let vertexPosition :=
      map (fun v =>
             if rotate
             then let r := rotateBy (V2 (inject_Z (fst (gv_pos v))) (inject_Z (snd (gv_pos v)))) rotation in
                  iadd sp (f2i16 (vx r), f2i16 (vy r))
             else iadd sp (gv_pos v)) (gq_quad q) in
    if negb (existsb (vertex_inside mn mx) vertexPosition) then [] else
    [(gq_atlas q, map (fun '(p, v) => MkTextVertex p (gv_uv v) state)
                      (combine vertexPosition (gq_quad q)))]) qs
  end.

(** ** labels.cpp: the occlusion pass *)

(** Modelled from the spec: the [LabelEntry] constructor of
    [processLabelUpdate] (labels.h, not under src): its priority is the
    label's, its OBB range is empty until the occlusion pass assigns one. *)
Definition LabelEntry_ctor (store : Store) (lid : nat) (tile : option Tile)
           (proxy : bool) (transform : list vec2) : LabelEntry :=
  MkEntry lid tile proxy (priority (l_options (store lid))) transform (MkRange 0 0).

Definition set_le_obbs (r : Range) (e : LabelEntry) : LabelEntry :=
  MkEntry (le_label e) (le_tile e) (le_proxy e) (le_priority e) (le_transform e) r.

Fixpoint update_nth {A} (f : A -> A) (i : nat) (l : list A) : list A :=
  match l, i with
  | [], _ => []
  | x :: xs, O => f x :: xs
  | x :: xs, S j => x :: update_nth f j xs
  end.

(** [Label::parent()->dimension()], the dimension [applyAnchor] adds. *)
Definition parent_dim (store : Store) (l : Label) : option vec2 :=
  match l_parent l with Some p => Some (l_dim (store p)) | None => None end.

(** Modelled from the spec: [Label::nextAnchor] (label.cpp, not under src)
    "advances and wraps": it applies the next anchor of the options, wrapping
    to the first, and reports whether the anchor index changed. *)
Definition nextAnchor (pdim : option vec2) (l : Label) : bool * Label :=
  let n := List.length (anchors (l_options l)) in
  let index := l_anchorIndex l in
  let ni := Nat.modulo (S index) n in
  let l' := applyAnchor pdim (nth ni (anchors (l_options l)) center) (set_anchor ni (l_anchor l) l) in
  (negb (Nat.eqb ni index), l').

(** The state of the pass: the labels, [m_labels], the OBB arena
    [m_obbs], the contents of the broad-phase grid [m_isect2d] (each
    inserted extent with its payload, the global index of the OBB) and
    [m_repeatGroups]. *)
Record PassState := MkPS {
  ps_store : Store;
  ps_entries : list LabelEntry;
  ps_obbs : list OBB;
  ps_isect : list (AABB * nat);
  ps_groups : N -> list nat
}.

(** The [findLabel] lambda: [std::lower_bound] over [m_labels] with the
    predicate [obb > p.obbs.start], written as the library's binary search
    (halve the range, step past the middle when the predicate holds). *)
Fixpoint lower_bound_loop (es : list LabelEntry) (obb : nat) (fuel first len : nat) : nat :=
  match fuel with
  | O => first
  | S f =>
    if Nat.eqb len 0 then first else
    let half := Nat.div2 len in
    let middle := (first + half)%nat in
    let s := match nth_error es middle with Some e => r_start (le_obbs e) | None => 0%nat end in
    if Nat.ltb s obb
    then lower_bound_loop es obb f (S middle) (len - half - 1)
    else lower_bound_loop es obb f first half
  end.

Definition findLabel (es : list LabelEntry) (obb : nat) : option nat :=
  match nth_error es (lower_bound_loop es obb (S (List.length es)) 0 (List.length es)) with
  | Some e => Some (le_label e)
  | None => None
  end.

(** Modelled from the spec: [ISect2D::intersect(query, cb)] visits the
    payloads whose extent overlaps the query (no false negatives) and stops
    as soon as [cb] returns [false]. The callback only changes the label
    under placement, which is threaded through. *)
Fixpoint isect_intersect (items : list (AABB * nat)) (q : AABB) (lab : Label)
         (cb : nat -> Label -> bool * Label) : Label :=
  match items with
  | [] => lab
  | (a, payload) :: rest =>
    if aabb_intersect q a then
      let '(cont, lab') := cb payload lab in
      if cont then isect_intersect rest q lab' cb else lab'
    else isect_intersect rest q lab cb
  end.

Definition dummyOBB : OBB := MkOBB (V2 0 0) (V2 1 0) 0 0.

(** The callback of [handleOcclusions] for the OBB [o] of the label. *)
Definition occlusion_cb (es : list LabelEntry) (arena : list OBB) (o : OBB)
           (other : nat) (lab : Label) : bool * Label :=
  if negb (obb_intersect o (nth other arena dummyOBB)) then (true, lab)
  else if match l_parent lab with
          | Some p => match findLabel es other with Some q => Nat.eqb p q | None => false end
          | None => false
          end
  then (true, lab)
  else (false, set_occluded true lab).

(** [for (auto& obb : obbs) { m_isect2d.intersect(...); if (l->isOccluded()) break; }] *)
Fixpoint scan_obbs (es : list LabelEntry) (arena : list OBB) (isect : list (AABB * nat))
         (os : list OBB) (lab : Label) : Label :=
  match os with
  | [] => lab
  | o :: rest =>
    let lab := isect_intersect isect (getExtent o) lab (occlusion_cb es arena o) in
    if l_occluded lab then lab else scan_obbs es arena isect rest lab
  end.

(** [Labels::withinRepeatDistance]. *)
Definition withinRepeatDistance (store : Store) (groups : N -> list nat) (l : Label) : bool :=
  let threshold2 := repeatDistance (l_options l) * repeatDistance (l_options l) in
  existsb (fun ll => Qltb (distance2 (l_screenCenter l) (l_screenCenter (store ll))) threshold2)
          (groups (repeatGroup (l_options l))).

Definition group_push (groups : N -> list nat) (g : N) (lid : nat) : N -> list nat :=
  fun g' => if N.eqb g' g then groups g ++ [lid] else groups g'.

Section Occlusion.

Variable activation_distance_threshold : Q.

(** The anchor loop of [handleOcclusions] ([do { ... } while (l->isOccluded()
    && l->nextAnchor())]): [prefix] is the arena before the label's slice,
    [cur] the slice. It returns the label and its final slice. The fuel
    (number of anchors plus two) is never exhausted when the options have
    an anchor: every turn either leaves the loop or moves to the next anchor,
    and the loop breaks on coming back to the first one. *)
Fixpoint anchor_loop (fuel : nat) (es : list LabelEntry) (prefix : list OBB)
         (isect : list (AABB * nat)) (pdim : option vec2) (tr : list vec2)
         (anchorIndex : nat) (lab : Label) (cur : list OBB) : Label * list OBB :=
  match fuel with
  | O => (lab, cur)
  | S f =>
    let '(brk, cur) :=
      if l_occluded lab
      then (Nat.eqb anchorIndex (l_anchorIndex lab), label_obbs activation_distance_threshold lab tr)
      else (false, cur) in
    if brk then (lab, cur) else
    let lab := set_occluded false lab in
    let lab := scan_obbs es (prefix ++ cur) isect cur lab in
    if l_occluded lab then
      let '(moved, lab) := nextAnchor pdim lab in
      if moved then anchor_loop f es prefix isect pdim tr anchorIndex lab cur
      else (lab, cur)
    else (lab, cur)
  end.

(** One iteration of the loop of [Labels::handleOcclusions], for the entry
    at index [i] of [m_labels]. *)
Definition process_entry (st : PassState) (i : nat) : PassState :=
  match nth_error (ps_entries st) i with
  | None => st
  | Some e =>
    let store := ps_store st in
    let lid := le_label e in
    let l := store lid in
    let parent_occluded :=
      match l_parent l with Some p => l_occluded (store p) | None => false end in
    if parent_occluded then
      MkPS (store_set store lid (set_occluded true l)) (ps_entries st) (ps_obbs st)
           (ps_isect st) (ps_groups st)
    else
    let start := List.length (ps_obbs st) in
    let cur := label_obbs activation_distance_threshold l (le_transform e) in
    let es := update_nth (set_le_obbs (MkRange start (List.length cur))) i (ps_entries st) in
    let rd := repeatDistance (l_options l) in
    let l := if Qltb 0 rd && withinRepeatDistance store (ps_groups st) l
             then set_occluded true l else l in
    let '(l, cur) :=
      anchor_loop (S (S (List.length (anchors (l_options l))))) es (ps_obbs st) (ps_isect st)
                  (parent_dim store l) (le_transform e) (l_anchorIndex l) l cur in
    let es := update_nth (set_le_obbs (MkRange start (List.length cur))) i es in
    let store := store_set store lid l in
    let arena := ps_obbs st ++ cur in
    if l_occluded l then
      let store :=
        match l_parent l with
        | Some p => if required (l_options l) then store_set store p (set_occluded true (store p))
                    else store
        | None => store
        end in
      MkPS store es arena (ps_isect st) (ps_groups st)
    else
      let isect := ps_isect st ++ map (fun '(k, o) => (getExtent o, (start + k)%nat))
                                      (combine (seq 0 (List.length cur)) cur) in
      let groups := if Qltb 0 rd then group_push (ps_groups st) (repeatGroup (l_options l)) lid
                    else ps_groups st in
      MkPS store es arena isect groups
  end.

(** [Labels::handleOcclusions]: the grid and the repeat groups start empty,
    and so does the OBB arena, which [updateLabelSet] clears first. *)
Definition handleOcclusions (store : Store) (entries : list LabelEntry) : PassState :=
  fold_left process_entry (seq 0 (List.length entries))
            (MkPS store entries [] [] (fun _ => [])).

(** The pass after its first [j] iterations. *)
Definition pass_prefix (store : Store) (entries : list LabelEntry) (j : nat) : PassState :=
  fold_left process_entry (seq 0 j) (MkPS store entries [] [] (fun _ => [])).

End Occlusion.

(** The fields of a label that the occlusion pass never changes: its
    options, its parent and its screen center. *)
Definition keeps (l' l : Label) : Prop :=
  l_options l' = l_options l /\ l_parent l' = l_parent l /\ l_screenCenter l' = l_screenCenter l.

(** The invariant of the pass, relative to the store and the entries it
    started from: every label keeps its options, parent and screen center,
    the entries keep their labels, and a label in a repeat group has a
    positive repeat distance and belongs to that group. *)
Definition pass_inv (store : Store) (entries : list LabelEntry) (st : PassState) : Prop :=
  (forall x, keeps (ps_store st x) (store x)) /\
  map le_label (ps_entries st) = map le_label entries /\
  (forall g x, In x (ps_groups st g) ->
     Qltb 0 (repeatDistance (l_options (store x))) = true /\
     repeatGroup (l_options (store x)) = g).

(** ** labels.cpp: the rest of [Labels::updateLabelSet] *)


Definition screenBounds (viewportSize : vec2) : AABB := MkAABB (V2 0 0) viewportSize.

(** [LabelOBBs{ m_obbs, entry.obbs }]: the OBBs of an entry's slice. *)
Definition entry_obbs (arena : list OBB) (e : LabelEntry) : list OBB :=
  firstn (r_length (le_obbs e)) (skipn (r_start (le_obbs e)) arena).

(** The layout of the OBB arena after the first [j] iterations: the
    entries from [j] on still have an empty range, every non-empty range
    lies inside the arena, and the slices of the entries, in order, make up
    the arena. *)
Definition arena_inv (j : nat) (es : list LabelEntry) (arena : list OBB) : Prop :=
  (forall k e, (j <= k)%nat -> nth_error es k = Some e -> r_length (le_obbs e) = 0%nat) /\
  (forall e, In e es -> r_length (le_obbs e) = 0%nat \/
                        (r_start (le_obbs e) + r_length (le_obbs e) <= List.length arena)%nat) /\
  concat (map (entry_obbs arena) es) = arena.




(** The zoom step of [updateLabelSet] (lines 417-420): whether
    [skipTransitions] runs, and the new [m_lastZoom]. *)
Definition zoom_step (lastZoom zoom : Q) : bool * Q :=
  if negb (Z.eqb (Qtrunc lastZoom) (Qtrunc zoom)) then (true, zoom) else (false, lastZoom).

(** ** labels.cpp: collection *)

Section Collect.

Variable worldToScreenSpace : vec2 -> vec2 * bool.
Variable length : vec2 -> Q.

(** Modelled from the spec: [Label::update] (label.cpp, not under src)
    computes the screen transform with [updateScreenTransform] and fails
    when it fails ("If [update] returns false, drop this label"); [inBounds]
    is its test of the label against the clip region, which the spec does
    not detail. *)
Variable inBounds : AABB -> Label -> bool.

Definition Label_update (bounds : AABB) (l : Label) : bool * Label * list vec2 :=
  let '(ok, l', tr) := updateScreenTransform worldToScreenSpace length l in
  if ok then (inBounds bounds l', l', tr) else (false, l', tr).

(** Modelled from the spec: [Label::canOcclude], true for point, line and
    curved labels, false for debug labels. *)
Definition canOcclude (l : Label) : bool := negb (LabelType_eqb (l_type l) debug).

(** [Labels::processLabelUpdate] with [onlyTransitions = false], over the
    labels [lids] of one label set: the store with the updated labels and
    the entries pushed to [m_labels]. A label that cannot occlude is drawn
    at once ([evalState], [addVerticesToMesh]) and the selection list is
    filled; those effects are not part of this model. *)
Fixpoint processLabelUpdate (viewportSize : vec2) (tile : option Tile) (isProxy drawAll : bool)
         (store : Store) (lids : list nat) : Store * list LabelEntry :=
  match lids with
  | [] => (store, [])
  | lid :: rest =>
    let l := store lid in
    if negb drawAll && State_eqb (l_state l) dead
    then processLabelUpdate viewportSize tile isProxy drawAll store rest else
    let border := 256 in
    let extendedBounds := MkAABB (V2 (- border) (- border))
                                 (V2 (vx viewportSize + border) (vy viewportSize + border)) in
    let bounds := if negb (canOcclude l) then screenBounds viewportSize else extendedBounds in
    let '(ok, l', tr) := Label_update bounds l in
    let store := store_set store lid l' in
    if negb ok then processLabelUpdate viewportSize tile isProxy drawAll store rest else
    let '(store', es) := processLabelUpdate viewportSize tile isProxy drawAll store rest in
    if canOcclude l'
    then (store', MkEntry lid tile isProxy (priority (l_options l')) tr (MkRange 0 0) :: es)
    else (store', es)
  end.

End Collect.

(** ** labels.cpp: selection and transitions *)

Section Selection.

(** [Label::selectionColor] (label.h, not under src). *)
Variable selectionColor : Label -> N.

(** [Labels::getLabel]: the label and tile of the first entry of
    [m_selectionLabels] whose label is in a visible state and carries the
    selection color; [{nullptr, nullptr}] when there is none. *)
Fixpoint getLabel (store : Store) (sel : list LabelEntry) (c : N) : option (nat * option Tile) :=
  match sel with
  | [] => None
  | e :: rest =>
    if visibleState (l_state (store (le_label e))) && N.eqb (selectionColor (store (le_label e))) c
    then Some (le_label e, le_tile e)
    else getLabel store rest c
  end.

End Selection.

Section SkipTransitions.

(** [std::sqrt] on the squared distance. *)
Variable sqrt : Q -> Q.

(** The tests of the inner loop of [Labels::skipTransitions(styles, tile,
    proxy)] on the label [l1] of the proxy for the label [l0] of the tile;
    [std::max(a, b)] is [a < b ? b : a]. *)
Definition skip_match (store : Store) (l0 l1 : nat) : bool :=
  let a := store l0 in
  let b := store l1 in
  visibleState (l_state b) && canOcclude b &&
  N.eqb (repeatGroup (l_options a)) (repeatGroup (l_options b)) &&
  Qltb (sqrt (distance2 (l_screenCenter a) (l_screenCenter b)))
       (if Qltb (vx (l_dim a)) (vy (l_dim a)) then vy (l_dim a) else vx (l_dim a)).

(** The two loops over the labels [l0s] of the tile's label set and [l1s]
    of the proxy's: the labels [l0] on which [Label::skipTransitions] is
    called, once per call, in call order. That call (label.cpp) only
    changes the transition state of [l0], which no later test reads. *)
Definition skipTransitions_set (store : Store) (l0s l1s : list nat) : list nat :=
  flat_map (fun l0 =>
    if negb (canOcclude (store l0)) then [] else
    if negb (State_eqb (l_state (store l0)) none) then [] else
    flat_map (fun l1 => if skip_match store l0 l1 then [l0] else []) l1s) l0s.

(** [Labels::skipTransitions(styles, tile, proxy)]: for each style, the
    label sets of the tile and of the proxy ([None] when the mesh is not a
    [LabelSet]: the style is skipped). *)
Definition skipTransitions_tile (store : Store)
           (meshes : list (option (list nat) * option (list nat))) : list nat :=
  flat_map (fun '(m0, m1) =>
    match m0, m1 with
    | Some l0s, Some l1s => skipTransitions_set store l0s l1s
    | _, _ => []
    end) meshes.

End SkipTransitions.

(** ** Concrete frames *)

Module Frames.

Definition opts (prio : N) (req : bool) (h : N) : Options :=
  MkOptions prio [center] (V2 0 0) (V2 0 0) 0 0 req h.

Definition attrib0 : FontAttrib := MkFontAttrib 0 0 0 1.

(** A text label with one glyph quad of side 8 (in position units) around
    its anchor point. *)
Definition glyph : GlyphQuad :=
  MkGlyphQuad 0 [MkGlyphVertex (-4, -4) (0, 0); MkGlyphVertex (4, -4) (1, 0);
                 MkGlyphVertex (4, 4) (1, 1); MkGlyphVertex (-4, 4) (0, 1)]%Z.

Definition text0 : TextData :=
  MkTextData (V2 0 0) (V2 0 0) [MkRange 0 1; MkRange 0 1; MkRange 0 1] 2 attrib0 Anone [glyph].

Definition box (x y w h : Q) : OBB := MkOBB (V2 x y) (V2 1 0) w h.

(** Frame 1: a curved label [X] with two glyph boxes, then a point label
    [P], then its child [C], whose box meets the second box of [X] only. *)
Definition X1 : Label :=
  MkLabel (CurvedV [box 0 0 10 10; box 20 0 10 10] 0) curved (opts 0 false 1) (V2 30 10)
          None none 0 false false 0%nat (V2 0 0) (V2 10 0).
Definition P1 : Label :=
  MkLabel (TextV text0) point (opts 1 false 2) (V2 10 10)
          None none 0 false false 0%nat (V2 0 0) (V2 100 100).
Definition C1 : Label :=
  MkLabel (TextV text0) point (opts 2 false 3) (V2 10 10)
          (Some 1%nat) none 0 false false 0%nat (V2 0 0) (V2 25 0).

Definition store1 : Store :=
  fun k => match k with O => X1 | S O => P1 | _ => C1 end.

Definition entries1 : list LabelEntry :=
  [LabelEntry_ctor store1 0 None false [];
   LabelEntry_ctor store1 1 None false [V2 100 100; V2 1 0];
   LabelEntry_ctor store1 2 None false [V2 25 0; V2 1 0]].

(** Frame 2: two line labels and a point label with equal priority, tile
    zoom and state. *)
Definition tile14 : Tile := MkTile (MkTileID 0 0 14).

Definition lineText (x : Q) : TextData :=
  MkTextData (V2 0 0) (V2 x 0) [MkRange 0 1; MkRange 0 1; MkRange 0 1] 2 attrib0 Anone [glyph].

Definition A2 : Label :=
  MkLabel (TextV (lineText 2)) line (opts 0 false 3) (V2 10 10)
          None none 0 false false 0%nat (V2 0 0) (V2 0 0).
Definition B2 : Label :=
  MkLabel (TextV (lineText 1)) line (opts 0 false 1) (V2 10 10)
          None none 0 false false 0%nat (V2 0 0) (V2 0 0).
Definition Q2 : Label :=
  MkLabel (TextV text0) point (opts 0 false 2) (V2 10 10)
          None none 0 false false 0%nat (V2 0 0) (V2 0 0).

Definition store2 : Store :=
  fun k => match k with O => A2 | S O => B2 | _ => Q2 end.

Definition eA2 : LabelEntry := LabelEntry_ctor store2 0 (Some tile14) false [].
Definition eB2 : LabelEntry := LabelEntry_ctor store2 1 (Some tile14) false [].
Definition eQ2 : LabelEntry := LabelEntry_ctor store2 2 (Some tile14) false [].

(** Frames 3: point sprites of repeat group 7. *)
Definition sopts (rd : Q) : Options := MkOptions 0 [center] (V2 0 0) (V2 0 0) 7 rd false 0.

Definition sprite (rd : Q) (x : Q) : Label :=
  MkLabel SpriteV point (sopts rd) (V2 10 10) None none 0 false false 0%nat (V2 0 0) (V2 x 300).

Definition sentry (store : Store) (k : nat) (x : Q) : LabelEntry :=
  LabelEntry_ctor store k None false [V2 x 300; V2 1 0].

(** Repeat distance 100 for the first label, 10 for the second, 50 apart. *)
Definition store3 : Store :=
  fun k => match k with O => sprite 100 0 | _ => sprite 10 50 end.
Definition entries3 : list LabelEntry := [sentry store3 0 0; sentry store3 1 50].

(** The spec's scenario: repeat distance 120, at x = 100, 200, 350. *)
Definition store3b : Store :=
  fun k => match k with O => sprite 120 100 | S O => sprite 120 200 | _ => sprite 120 350 end.
Definition entries3b : list LabelEntry :=
  [sentry store3b 0 100; sentry store3b 1 200; sentry store3b 2 350].

(** Frame 4: a label [Q]; a point label [P], visible since earlier frames;
    its required child [C], whose box meets the box of [Q]. *)
Definition Q4 : Label :=
  MkLabel (TextV text0) point (opts 0 false 1) (V2 10 10)
          None none 0 false false 0%nat (V2 0 0) (V2 0 0).
Definition P4 : Label :=
  MkLabel (TextV text0) point (opts 1 false 2) (V2 10 10)
          None visible 1 false false 0%nat (V2 0 0) (V2 100 100).
Definition C4 : Label :=
  MkLabel (TextV text0) point (opts 2 true 3) (V2 10 10)
          (Some 1%nat) none 0 false false 0%nat (V2 0 0) (V2 5 0).

Definition store4 : Store :=
  fun k => match k with O => Q4 | S O => P4 | _ => C4 end.

Definition entries4 : list LabelEntry :=
  [LabelEntry_ctor store4 0 None false [V2 0 0; V2 1 0];
   LabelEntry_ctor store4 1 None false [V2 100 100; V2 1 0];
   LabelEntry_ctor store4 2 None false [V2 5 0; V2 1 0]].

(** Frame 5: the labels of frame 4, with [P] drawn over [Q]: [P] is
    occluded, and its child [C] after it. *)
Definition entries5 : list LabelEntry :=
  [LabelEntry_ctor store4 0 None false [V2 0 0; V2 1 0];
   LabelEntry_ctor store4 1 None false [V2 5 0; V2 1 0];
   LabelEntry_ctor store4 2 None false [V2 100 100; V2 1 0]].

Definition viewport : vec2 := V2 800 600.

(** Projections for the line labels: the identity, never clipped, or
    clipping every point; a length exact on perfect integer squares. *)
Definition proj_id (p : vec2) : vec2 * bool := (p, false).
Definition proj_clip (p : vec2) : vec2 * bool := (p, true).
Definition isqrt_length (v : vec2) : Q := inject_Z (Z.sqrt (Qfloor (length2 v))).
Definition inBounds_all (b : AABB) (l : Label) : bool := true.

(** Line labels: a segment of 50 px under a label 100 wide, and a segment
    from (0,0) to (3,4) under a label 1 wide. *)
Definition L5 : Label :=
  MkLabel (TextV (MkTextData (V2 0 0) (V2 30 40) [MkRange 0 1; MkRange 0 1; MkRange 0 1] 2
                             attrib0 Anone [glyph]))
          line (opts 0 false 5) (V2 100 10) None none 0 false false 0%nat (V2 0 0) (V2 0 0).
Definition L7 : Label :=
  MkLabel (TextV (MkTextData (V2 0 0) (V2 3 4) [MkRange 0 1; MkRange 0 1; MkRange 0 1] 2
                             attrib0 Anone [glyph]))
          line (opts 0 false 7) (V2 1 1) None none 0 false false 0%nat (V2 0 0) (V2 0 0).

(** Point labels: one with a buffer, occluded last frame; one dead. *)
Definition L6 : Label :=
  MkLabel (TextV text0) point (MkOptions 0 [center] (V2 0 0) (V2 2 2) 0 0 false 6) (V2 10 10)
          None visible 1 false true 0%nat (V2 0 0) (V2 0 0).
Definition L6d : Label :=
  MkLabel (TextV text0) point (opts 0 false 6) (V2 10 10)
          None dead 0 false false 0%nat (V2 0 0) (V2 0 0).

End Frames.

(** * Properties *)

Import Frames.

Lemma Qltb_true (a b : Q) : a < b -> Qltb a b = true.
Proof.
  intro H. unfold Qltb. destruct (Qle_bool b a) eqn:E; [|reflexivity].
  apply Qle_bool_iff in E. exfalso. apply (Qlt_not_le a b); assumption.
Qed.

Lemma Qltb_false (a b : Q) : Qltb a b = false -> b <= a.
Proof.
  unfold Qltb. destruct (Qle_bool b a) eqn:E; [|discriminate].
  intros _. apply Qle_bool_iff. exact E.
Qed.

Lemma Qltb_true_lt (a b : Q) : Qltb a b = true -> a < b.
Proof.
  unfold Qltb. destruct (Qle_bool b a) eqn:E; [discriminate|].
  intros _. apply Qnot_le_lt. intro H. apply Qle_bool_iff in H. congruence.
Qed.

(** ** Comparator *)

(** C2 (code_bug): [labelComparator] is not a strict weak order. On frame 2
    (equal priority, tile zoom and state) it puts the line label [A] before
    the line label [B] (longer segment), [B] before the point label [Q]
    (lower hash), and [Q] before [A] (lower hash): a cycle. *)
Lemma C2_labelComparator_cycle :
  labelComparator store2 eA2 eB2 = true /\
  labelComparator store2 eB2 eQ2 = true /\
  labelComparator store2 eQ2 eA2 = true.
Proof. vm_compute. repeat split. Qed.

Lemma labelComparator_not_strict_weak_order :
  ~ strict_weak_order (labelComparator store2).
Proof.
  intros [_ [Htrans _]].
  assert (H : labelComparator store2 eA2 eQ2 = true)
    by (apply (Htrans eA2 eB2 eQ2); vm_compute; reflexivity).
  vm_compute in H. discriminate.
Qed.

(** ** Line and point labels *)

Lemma processLabelUpdate_labels proj len inB vp tile isProxy drawAll store lids x :
  In x (map le_label (snd (processLabelUpdate proj len inB vp tile isProxy drawAll store lids))) ->
  In x lids.
Proof.
  revert store. induction lids as [|lid rest IH]; intros store H; simpl in H; [contradiction|].
  destruct (negb drawAll && State_eqb (l_state (store lid)) dead).
  - right. eapply IH. exact H.
  - destruct (Label_update proj len inB _ (store lid)) as [[ok l'] tr].
    destruct (negb ok).
    + right. eapply IH. exact H.
    + destruct (processLabelUpdate proj len inB vp tile isProxy drawAll
                 (store_set store lid l') rest) as [s' es] eqn:E.
      destruct (canOcclude l'); simpl in H.
      * destruct H as [H|H]; [left; auto|].
        right. apply (IH (store_set store lid l')). rewrite E. exact H.
      * right. apply (IH (store_set store lid l')). rewrite E. exact H.
Qed.

(** C5: a line text label is rejected by [updateScreenTransform] when an
    endpoint projects clipped or when the projected segment is shorter than
    [0.7 * dim.x]; collection then drops it: no entry of [m_labels] is made
    for it. *)
Theorem C5_line_label_rejected (proj : vec2 -> vec2 * bool) (len : vec2 -> Q)
        (l : Label) (t : TextData) :
  l_variant l = TextV t -> l_type l = line ->
  snd (proj (t_world0 t)) = true \/ snd (proj (t_world1 t)) = true \/
  len (vsub (fst (proj (t_world1 t))) (fst (proj (t_world0 t)))) < vx (l_dim l) * (7#10) ->
  fst (fst (updateScreenTransform proj len l)) = false /\
  (forall inB vp tile isProxy drawAll store lid lids,
     store lid = l -> NoDup (lid :: lids) ->
     ~ In lid (map le_label
                 (snd (processLabelUpdate proj len inB vp tile isProxy drawAll store (lid :: lids))))).
Proof.
  intros Hv Ht Hc.
  assert (Hrej : fst (fst (updateScreenTransform proj len l)) = false).
  { unfold updateScreenTransform. rewrite Hv, Ht.
    destruct (proj (t_world0 t)) as [ap0 c0]; destruct (proj (t_world1 t)) as [ap2 c2].
    simpl in Hc. destruct c0, c2; simpl; try reflexivity.
    destruct Hc as [H|[H|H]]; try discriminate.
    rewrite (Qltb_true _ _ H). reflexivity. }
  split; [exact Hrej|].
  intros inB vp tile isProxy drawAll store lid lids Hs Hnd Hin.
  inversion Hnd as [|? ? Hnotin _]; subst.
  simpl in Hin.
  destruct (negb drawAll && State_eqb (l_state (store lid)) dead).
  - apply Hnotin. eapply processLabelUpdate_labels. exact Hin.
  - unfold Label_update in Hin.
    destruct (updateScreenTransform proj len (store lid)) as [[ok l'] tr] eqn:E.
    simpl in Hrej. subst ok. simpl in Hin.
    apply Hnotin. eapply processLabelUpdate_labels. exact Hin.
Qed.

(** Witness of C5: the spec's case, a segment of 50 px under a label 100
    wide, is rejected. *)
Lemma C5_line_label_rejected_witness :
  fst (fst (updateScreenTransform proj_id isqrt_length L5)) = false.
Proof.
  refine (proj1 (C5_line_label_rejected proj_id isqrt_length L5 _ eq_refl eq_refl _)).
  right. right. vm_compute. reflexivity.
Defined.

(** C6 (corrected): [TextLabel::obbs] emits one OBB sized [dim - buffer],
    plus the threshold when occluded last frame ([dim - buffer + threshold],
    not [dim + threshold]). The frame's point label with buffer (2,2),
    occluded last frame, gets width 10 where the claim says 12; the dead
    label gets width 6 where the claim says 10. *)
Lemma C6_obbs_counterexample :
  Qeq_bool (obb_w (hd dummyOBB (textLabel_obbs 2 L6 [V2 0 0; V2 1 0]))) 12 = false /\
  Qeq_bool (obb_w (hd dummyOBB (textLabel_obbs 2 L6 [V2 0 0; V2 1 0]))) 10 = true /\
  Qeq_bool (obb_w (hd dummyOBB (textLabel_obbs 2 L6d [V2 0 0; V2 1 0]))) 10 = false /\
  Qeq_bool (obb_w (hd dummyOBB (textLabel_obbs 2 L6d [V2 0 0; V2 1 0]))) 6 = true.
Proof. vm_compute. repeat split. Qed.

(** C6, amended: [TextLabel::obbs] emits exactly one OBB, centered at the
    stored position plus [m_anchor], with axis the stored rotation with its
    y negated, and width and height [dim - buffer], plus
    [activation_distance_threshold] when occluded last frame, minus 4 when
    the label is dead. *)
Theorem C6_point_label_obb (thr : Q) (l : Label) (tr : list vec2) :
  exists o, textLabel_obbs thr l tr = [o] /\
    centroid o = vadd (pt_position tr) (l_anchor l) /\
    axis o = V2 (vx (pt_rotation tr)) (- vy (pt_rotation tr)) /\
    obb_w o == vx (l_dim l) - vx (buffer (l_options l))
               + (if l_occludedLastFrame l then thr else 0)
               - (if State_eqb (l_state l) dead then 4 else 0) /\
    obb_h o == vy (l_dim l) - vy (buffer (l_options l))
               + (if l_occludedLastFrame l then thr else 0)
               - (if State_eqb (l_state l) dead then 4 else 0).
Proof.
  eexists. split; [reflexivity|]. simpl.
  repeat split; destruct (l_occludedLastFrame l), (State_eqb (l_state l) dead); simpl; ring.
Qed.

(** C7 (corrected): the rotation stored for an accepted line label is not
    the unit vector from the left to the right endpoint: its y component is
    negated. On the segment from (0,0) to (3,4) the unit vector is
    (3/5, 4/5), and the stored rotation is (3/5, -4/5). *)
Lemma C7_rotation_counterexample :
  let r := updateScreenTransform proj_id isqrt_length L7 in
  fst (fst r) = true /\
  Qeq_bool (vx (pt_rotation (snd r))) (3#5) = true /\
  Qeq_bool (vy (pt_rotation (snd r))) (-4#5) = true /\
  Qeq_bool (vy (pt_rotation (snd r))) (4#5) = false.
Proof. vm_compute. repeat split. Qed.

(** C7, amended: for an accepted line label (with [dim.x > 0]) the stored
    rotation is [(d.x / L, -(d.y / L))], where [d] is the difference from
    the left to the right projected endpoint and [L] the screen length of
    the segment: the left-to-right direction with its y component negated.
    Its x component is non-negative, and it has unit length when [length]
    is the Euclidean length. *)
Theorem C7_line_rotation (proj : vec2 -> vec2 * bool) (len : vec2 -> Q)
        (l : Label) (t : TextData) :
  l_variant l = TextV t -> l_type l = line -> 0 < vx (l_dim l) ->
  fst (fst (updateScreenTransform proj len l)) = true ->
  let ap0 := fst (proj (t_world0 t)) in
  let ap2 := fst (proj (t_world1 t)) in
  let d := if Qleb (vx ap0) (vx ap2) then vsub ap2 ap0 else vsub ap0 ap2 in
  let L := len (vsub ap2 ap0) in
  let rot := pt_rotation (snd (updateScreenTransform proj len l)) in
  rot = V2 (vx d / L) (- (vy d / L)) /\
  0 <= vx rot /\
  (L * L == length2 (vsub ap2 ap0) -> length2 rot == 1).
Proof.
  intros Hv Ht Hd Hok. cbv zeta.
  unfold updateScreenTransform in *. rewrite Hv, Ht in *.
  destruct (proj (t_world0 t)) as [a0 c0]; destruct (proj (t_world1 t)) as [a2 c2].
  simpl in Hok |- *.
  destruct c0, c2; simpl in Hok |- *; try discriminate.
  destruct (Qltb (len (vsub a2 a0)) (vx (l_dim l) * (7 # 10))) eqn:El;
    simpl in Hok |- *; try discriminate.
  apply Qltb_false in El.
  destruct (proj (vscale (vadd (t_world1 t) (t_world0 t)) (1 # 2))) as [sp c1].
  simpl.
  set (L := len (vsub a2 a0)) in *.
  assert (HL : 0 < L).
  { apply Qlt_le_trans with (vx (l_dim l) * (7 # 10)); [|exact El].
    apply Qmult_lt_0_compat; [exact Hd | reflexivity]. }
  assert (HL0 : ~ L == 0) by (intro E; rewrite E in HL; discriminate).
  destruct a0 as [x0 y0], a2 as [x2 y2]. simpl in *.
  split; [reflexivity|]. split.
  - apply Qle_shift_div_l; [exact HL|]. rewrite Qmult_0_l.
    unfold Qleb. destruct (Qle_bool x0 x2) eqn:E; simpl.
    + apply Qle_bool_iff in E. apply Qle_minus_iff in E. exact E.
    + assert (H2 : x2 < x0)
        by (apply Qnot_le_lt; intro H; apply Qle_bool_iff in H; congruence).
      apply Qlt_le_weak. rewrite Qlt_minus_iff in H2. exact H2.
  - intro HLL. unfold length2. simpl.
    assert (Hsq : forall dx dy, dx * dx + dy * dy == L * L ->
                  dx / L * (dx / L) + - (dy / L) * - (dy / L) == 1).
    { intros dx dy H.
      setoid_replace (dx / L * (dx / L) + - (dy / L) * - (dy / L))
        with ((dx * dx + dy * dy) / (L * L)) by (field; exact HL0).
      rewrite H. field. exact HL0. }
    apply Hsq. rewrite HLL. unfold length2. simpl.
    destruct (Qleb x0 x2); simpl; ring.
Qed.

(** Witness of C7: the segment from (0,0) to (3,4) under a label 1 wide. *)
Lemma C7_line_rotation_witness :
  pt_rotation (snd (updateScreenTransform proj_id isqrt_length L7)) = V2 (3 / 5) (- (4 / 5)).
Proof.
  refine (proj1 (C7_line_rotation proj_id isqrt_length L7 _ eq_refl eq_refl _ _)).
  - reflexivity.
  - vm_compute. reflexivity.
Defined.

(** ** Zoom transitions *)

Lemma zoom_step_trunc (lastZoom zoom : Q) :
  Qtrunc (snd (zoom_step lastZoom zoom)) = Qtrunc zoom.
Proof.
  unfold zoom_step. destruct (Z.eqb (Qtrunc lastZoom) (Qtrunc zoom)) eqn:E; simpl;
    [apply Z.eqb_eq in E; exact E | reflexivity].
Qed.

(** C8: [updateLabelSet] skips transitions exactly when the integer parts of
    the stored and the current zoom differ. Whatever the zoom before, after
    a frame at 14.9 a frame at 15.0 skips transitions, and after a frame at
    14.1 a frame at 14.9 does not. *)
Theorem C8_zoom_step (lastZoom zoom z0 : Q) :
  fst (zoom_step lastZoom zoom) = negb (Z.eqb (Qtrunc lastZoom) (Qtrunc zoom)) /\
  fst (zoom_step (snd (zoom_step z0 (149 # 10))) 15) = true /\
  fst (zoom_step (snd (zoom_step z0 (141 # 10))) (149 # 10)) = false.
Proof.
  split; [unfold zoom_step; destruct (Z.eqb _ _); reflexivity|].
  split; unfold zoom_step at 1; rewrite zoom_step_trunc; reflexivity.
Qed.

(** ** Vertices *)

(** C10: [addVerticesToMesh] pushes no quad for a label whose state is not
    visible. *)
Theorem C10_not_visible_no_quads (l : Label) (tr : list vec2) (screenSize : vec2) :
  visibleState (l_state l) = false -> addVerticesToMesh l tr screenSize = [].
Proof.
  intro H. unfold addVerticesToMesh. rewrite H.
  destruct (l_variant l); reflexivity.
Qed.

(** Witness of C10: a dead label pushes nothing. *)
Lemma C10_not_visible_no_quads_witness :
  addVerticesToMesh L6d [V2 0 0; V2 1 0] (V2 800 600) = [].
Proof. apply C10_not_visible_no_quads. reflexivity. Defined.

(** ** The occlusion pass *)

(** C1 (code_bug): [findLabel] looks up the owner of an OBB with
    [lower_bound] on the first OBB index of each entry, so an OBB that is
    not the first of its label is credited to the next entry. In frame 1 the
    box of the child [C] meets the second box (index 1) of the unrelated
    curved label [X]; [findLabel] credits that box to [C]'s parent [P], the
    intersection is ignored, and [X] and [C] are both placed. *)
Lemma C1_child_overlaps_unrelated_label :
  let st := handleOcclusions 2 store1 entries1 in
  (l_occluded (ps_store st 0) = false /\ l_occluded (ps_store st 1) = false /\
   l_occluded (ps_store st 2) = false /\
   l_parent (store1 0) = None /\ l_parent (store1 2) = Some 1 /\
   option_map le_obbs (nth_error (ps_entries st) 0) = Some (MkRange 0 2) /\
   option_map le_obbs (nth_error (ps_entries st) 2) = Some (MkRange 3 1) /\
   obb_intersect (nth 3 (ps_obbs st) dummyOBB) (nth 1 (ps_obbs st) dummyOBB) = true /\
   findLabel (ps_entries st) 1 = Some 1)%nat.
Proof. vm_compute. repeat split. Qed.

(** *** Fields the pass leaves alone *)

Lemma keeps_refl (l : Label) : keeps l l.
Proof. repeat split. Qed.

Lemma keeps_trans (a b c : Label) : keeps a b -> keeps b c -> keeps a c.
Proof. intros [H1 [H2 H3]] [H4 [H5 H6]]. repeat split; congruence. Qed.

Lemma keeps_set_occluded (b : bool) (l : Label) : keeps (set_occluded b l) l.
Proof. repeat split. Qed.

Lemma keeps_applyAnchor (pd : option vec2) (a : Anchor) (l : Label) :
  keeps (applyAnchor pd a l) l.
Proof. unfold applyAnchor. destruct (l_variant l); repeat split. Qed.

Lemma keeps_nextAnchor (pd : option vec2) (l : Label) : keeps (snd (nextAnchor pd l)) l.
Proof.
  unfold nextAnchor. simpl. eapply keeps_trans; [apply keeps_applyAnchor|]. repeat split.
Qed.

Lemma keeps_isect_intersect items q lab (cb : nat -> Label -> bool * Label) :
  (forall p x, keeps (snd (cb p x)) x) -> keeps (isect_intersect items q lab cb) lab.
Proof.
  intros Hcb. revert lab. induction items as [|[a pl] rest IH]; intros lab; simpl;
    [apply keeps_refl|].
  destruct (aabb_intersect q a); [|apply IH].
  specialize (Hcb pl lab). destruct (cb pl lab) as [[|] lab']; simpl in Hcb; [|exact Hcb].
  eapply keeps_trans; [apply IH|exact Hcb].
Qed.

Lemma keeps_occlusion_cb es arena o other lab :
  keeps (snd (occlusion_cb es arena o other lab)) lab.
Proof.
  unfold occlusion_cb.
  repeat match goal with |- context [if ?c then _ else _] => destruct c end;
    simpl; first [apply keeps_refl | apply keeps_set_occluded].
Qed.

Lemma keeps_scan_obbs es arena isect os lab : keeps (scan_obbs es arena isect os lab) lab.
Proof.
  revert lab; induction os as [|o rest IH]; intros lab; simpl; [apply keeps_refl|].
  pose proof (keeps_isect_intersect isect (getExtent o) lab (occlusion_cb es arena o)
                (keeps_occlusion_cb es arena o)) as H.
  destruct (l_occluded _); [exact H|]. eapply keeps_trans; [apply IH|exact H].
Qed.

Lemma keeps_anchor_loop thr fuel es prefix isect pdim tr ai lab cur :
  keeps (fst (anchor_loop thr fuel es prefix isect pdim tr ai lab cur)) lab.
Proof.
  revert lab cur. induction fuel as [|f IH]; intros lab cur; cbn [anchor_loop];
    [apply keeps_refl|].
  destruct (if l_occluded lab then _ else _) as [brk cur'].
  destruct brk; [apply keeps_refl|].
  remember (scan_obbs es (prefix ++ cur') isect cur' (set_occluded false lab)) as ls eqn:Els.
  assert (Hs : keeps ls lab).
  { subst ls. eapply keeps_trans; [apply keeps_scan_obbs|apply keeps_set_occluded]. }
  destruct (l_occluded ls); [|exact Hs].
  pose proof (keeps_nextAnchor pdim ls) as Hn.
  destruct (nextAnchor pdim ls) as [moved lab']. cbn [snd] in Hn.
  destruct moved.
  - eapply keeps_trans; [apply IH|]. eapply keeps_trans; [exact Hn|exact Hs].
  - eapply keeps_trans; [exact Hn|exact Hs].
Qed.

(** A label that enters the anchor loop occluded leaves it at once,
    unchanged: the first turn finds it back at its first anchor. *)
Lemma anchor_loop_occluded thr f es prefix isect pdim tr lab cur :
  l_occluded lab = true ->
  fst (anchor_loop thr (S f) es prefix isect pdim tr (l_anchorIndex lab) lab cur) = lab.
Proof. intros H. simpl. rewrite H, Nat.eqb_refl. reflexivity. Qed.

Lemma keeps_store_set (s s0 : Store) (k : nat) (v : Label) :
  (forall x, keeps (s x) (s0 x)) -> keeps v (s0 k) ->
  forall x, keeps (store_set s k v x) (s0 x).
Proof.
  intros Hs Hv x. unfold store_set. destruct (Nat.eqb x k) eqn:E; [|apply Hs].
  apply Nat.eqb_eq in E. subst. exact Hv.
Qed.

Lemma map_update_nth {A B} (f : A -> B) (g : A -> A) (i : nat) (l : list A) :
  (forall x, f (g x) = f x) -> map f (update_nth g i l) = map f l.
Proof.
  intros Hg. revert i. induction l as [|x xs IH]; intros [|i]; simpl;
    try rewrite Hg; try rewrite IH; reflexivity.
Qed.

Lemma map_label_update_nth r i es :
  map le_label (update_nth (set_le_obbs r) i es) = map le_label es.
Proof. apply map_update_nth. reflexivity. Qed.

Lemma anchor_loop_keeps_eq thr fuel es prefix isect pdim tr ai lab cur l2 cur2 :
  anchor_loop thr fuel es prefix isect pdim tr ai lab cur = (l2, cur2) -> keeps l2 lab.
Proof.
  intros E. pose proof (keeps_anchor_loop thr fuel es prefix isect pdim tr ai lab cur) as H.
  rewrite E in H. exact H.
Qed.

Lemma anchor_loop_occluded_eq thr f es prefix isect pdim tr lab cur l2 cur2 :
  anchor_loop thr (S f) es prefix isect pdim tr (l_anchorIndex lab) lab cur = (l2, cur2) ->
  l_occluded lab = true -> l2 = lab.
Proof.
  intros E H. pose proof (anchor_loop_occluded thr f es prefix isect pdim tr lab cur H) as H'.
  rewrite E in H'. exact H'.
Qed.

Lemma store_set_eq (s : Store) (k : nat) (v : Label) : store_set s k v k = v.
Proof. unfold store_set. rewrite Nat.eqb_refl. reflexivity. Qed.

Lemma store_set_neq (s : Store) (k x : nat) (v : Label) : x <> k -> store_set s k v x = s x.
Proof. intros H. unfold store_set. apply Nat.eqb_neq in H. rewrite H. reflexivity. Qed.

Lemma store_set_occluded (s : Store) (k x : nat) (v : Label) :
  l_occluded (s x) = true -> l_occluded v = true -> l_occluded (store_set s k v x) = true.
Proof. intros Hx Hv. unfold store_set. destruct (Nat.eqb x k); assumption. Qed.

(** Opens one iteration of the pass at the entry [e] found at its index:
    [l1] is the label after the repeat-distance test, and the second case
    (the parent placed) names the result [(l2, cur2)] of the anchor loop. *)
Ltac open_entry Hn e :=
  unfold process_entry in *; rewrite Hn in *; cbv zeta in *;
  set (l1 := if Qltb 0 _ && withinRepeatDistance _ _ _ then _ else _) in *;
  let Hpo := fresh "Hpo" in
  destruct (match l_parent (ps_store _ (le_label e)) with
            | Some p => l_occluded (ps_store _ p) | None => false end) eqn:Hpo;
  [ | let l2 := fresh "l2" in let cur2 := fresh "cur2" in let Ea := fresh "Ea" in
      destruct (anchor_loop _ _ _ _ _ _ _ _ _ _) as [l2 cur2] eqn:Ea ].

(** *** One iteration of the pass *)

Lemma process_entry_inv thr store entries st i :
  pass_inv store entries st -> pass_inv store entries (process_entry thr st i).
Proof.
  intros [Hk [He Hg]].
  destruct (nth_error (ps_entries st) i) as [e|] eqn:Hn;
    [|unfold process_entry; rewrite Hn; split; auto].
  assert (Hk1 : keeps (if Qltb 0 (repeatDistance (l_options (ps_store st (le_label e))))
                          && withinRepeatDistance (ps_store st) (ps_groups st)
                               (ps_store st (le_label e))
                       then set_occluded true (ps_store st (le_label e))
                       else ps_store st (le_label e)) (store (le_label e))).
  { eapply keeps_trans; [|apply Hk]. destruct (_ && _);
      [apply keeps_set_occluded|apply keeps_refl]. }
  open_entry Hn e.
  - split; [|split; [exact He|exact Hg]]. simpl. apply keeps_store_set; [exact Hk|].
    eapply keeps_trans; [apply keeps_set_occluded|apply Hk].
  - assert (Hk2 : keeps l2 (store (le_label e)))
      by (eapply keeps_trans; [eapply anchor_loop_keeps_eq; exact Ea|exact Hk1]).
    assert (Hs : forall x, keeps (store_set (ps_store st) (le_label e) l2 x) (store x))
      by (apply keeps_store_set; assumption).
    destruct (l_occluded l2).
    + split; [|split]; simpl.
      * destruct (l_parent l2) as [p|]; [destruct (required _)|]; try exact Hs.
        apply keeps_store_set; [exact Hs|].
        eapply keeps_trans; [apply keeps_set_occluded|apply Hs].
      * rewrite !map_label_update_nth. exact He.
      * exact Hg.
    + split; [|split]; simpl.
      * exact Hs.
      * rewrite !map_label_update_nth. exact He.
      * intros g x Hin.
        destruct (Qltb 0 (repeatDistance (l_options (ps_store st (le_label e))))) eqn:Hrd;
          [|apply Hg; exact Hin].
        unfold group_push in Hin. destruct (N.eqb g _) eqn:Eg; [|apply Hg; exact Hin].
        apply N.eqb_eq in Eg. subst g.
        apply in_app_or in Hin. destruct Hin as [Hin|[Hx|[]]]; [apply Hg; exact Hin|].
        subst x. destruct (Hk (le_label e)) as [Ho _]. destruct Hk2 as [Ho2 _].
        rewrite Ho in Hrd. split; [exact Hrd|]. rewrite Ho2. reflexivity.
Qed.

Lemma label_after_repeat_test_keeps (st : PassState) (l : Label) :
  keeps (if Qltb 0 (repeatDistance (l_options l)) && withinRepeatDistance (ps_store st) (ps_groups st) l
         then set_occluded true l else l) l.
Proof. destruct (_ && _); [apply keeps_set_occluded|apply keeps_refl]. Qed.

(** An occluded label stays occluded through an iteration. *)
Lemma process_entry_mono thr st i x :
  l_occluded (ps_store st x) = true -> l_occluded (ps_store (process_entry thr st i) x) = true.
Proof.
  intros H.
  destruct (nth_error (ps_entries st) i) as [e|] eqn:Hn;
    [|unfold process_entry; rewrite Hn; exact H].
  open_entry Hn e.
  - cbn [ps_store]. apply store_set_occluded; [exact H|reflexivity].
  - destruct (Nat.eq_dec x (le_label e)) as [Hx|Hne].
    + subst x.
      assert (Ho1 : l_occluded l1 = true)
        by (unfold l1; destruct (_ && _); [reflexivity|exact H]).
      pose proof (anchor_loop_occluded_eq _ _ _ _ _ _ _ _ _ _ _ Ea Ho1) as Hl2. subst l2.
      rewrite Ho1. cbn [ps_store].
      assert (Hs : l_occluded (store_set (ps_store st) (le_label e) l1 (le_label e)) = true)
        by (rewrite store_set_eq; exact Ho1).
      destruct (l_parent l1) as [p|]; [destruct (required _)|]; try exact Hs.
      apply store_set_occluded; [exact Hs|reflexivity].
    + assert (Hs : l_occluded (store_set (ps_store st) (le_label e) l2 x) = true)
        by (rewrite store_set_neq by exact Hne; exact H).
      destruct (l_occluded l2); cbn [ps_store]; [|exact Hs].
      destruct (l_parent l2) as [p|]; [destruct (required _)|]; try exact Hs.
      apply store_set_occluded; [exact Hs|reflexivity].
Qed.

(** The repeat groups only grow. *)
Lemma process_entry_groups_mono thr st i g x :
  In x (ps_groups st g) -> In x (ps_groups (process_entry thr st i) g).
Proof.
  intros H.
  destruct (nth_error (ps_entries st) i) as [e|] eqn:Hn;
    [|unfold process_entry; rewrite Hn; exact H].
  open_entry Hn e; [exact H|].
  destruct (l_occluded l2); cbn [ps_groups]; [exact H|].
  destruct (Qltb 0 _); [|exact H].
  unfold group_push. destruct (N.eqb g _) eqn:Eg; [|exact H].
  apply N.eqb_eq in Eg. subst g. apply in_or_app. left. exact H.
Qed.

(** A label placed by its iteration passed the repeat-distance test, and
    joined its repeat group when its repeat distance is positive. *)
Lemma process_entry_placed thr st i e :
  nth_error (ps_entries st) i = Some e ->
  l_occluded (ps_store (process_entry thr st i) (le_label e)) = false ->
  (Qltb 0 (repeatDistance (l_options (ps_store st (le_label e)))) &&
   withinRepeatDistance (ps_store st) (ps_groups st) (ps_store st (le_label e))) = false /\
  (Qltb 0 (repeatDistance (l_options (ps_store st (le_label e)))) = true ->
   In (le_label e) (ps_groups (process_entry thr st i)
                      (repeatGroup (l_options (ps_store st (le_label e)))))).
Proof.
  intros Hn H.
  pose proof (label_after_repeat_test_keeps st (ps_store st (le_label e))) as Hk1.
  open_entry Hn e.
  - cbn [ps_store] in H. rewrite store_set_eq in H. discriminate.
  - assert (Hk2 : keeps l2 (ps_store st (le_label e)))
      by (eapply keeps_trans; [eapply anchor_loop_keeps_eq; exact Ea|exact Hk1]).
    destruct (l_occluded l2) eqn:Ho2.
    + exfalso. cbn [ps_store] in H.
      assert (Hs : l_occluded (store_set (ps_store st) (le_label e) l2 (le_label e)) = true)
        by (rewrite store_set_eq; exact Ho2).
      destruct (l_parent l2) as [p|]; [destruct (required _)|];
        try (rewrite Hs in H; discriminate).
      rewrite (store_set_occluded _ p _ (set_occluded true _) Hs eq_refl) in H. discriminate.
    + split.
      * destruct (_ && _) eqn:Hc; [|reflexivity]. exfalso.
        assert (Ho1 : l_occluded l1 = true) by (unfold l1; try rewrite Hc; reflexivity).
        pose proof (anchor_loop_occluded_eq _ _ _ _ _ _ _ _ _ _ _ Ea Ho1) as Hl2.
        subst l2. congruence.
      * intros Hrd. cbn [ps_groups]. rewrite Hrd. unfold group_push.
        destruct Hk2 as [Ho _]. rewrite Ho, N.eqb_refl.
        apply in_or_app. right. left. reflexivity.
Qed.


(** *** The whole pass *)

Lemma pass_prefix_S thr store entries j :
  pass_prefix thr store entries (S j) = process_entry thr (pass_prefix thr store entries j) j.
Proof. unfold pass_prefix. rewrite seq_S, fold_left_app. reflexivity. Qed.

Lemma handleOcclusions_pass_prefix thr store entries :
  handleOcclusions thr store entries = pass_prefix thr store entries (length entries).
Proof. reflexivity. Qed.

Lemma pass_prefix_inv thr store entries j :
  pass_inv store entries (pass_prefix thr store entries j).
Proof.
  induction j as [|j IH]; [|rewrite pass_prefix_S; apply process_entry_inv; exact IH].
  split; [intros x; apply keeps_refl|split; [reflexivity|intros g x []]].
Qed.

Lemma pass_prefix_mono thr store entries j k x :
  (j <= k)%nat -> l_occluded (ps_store (pass_prefix thr store entries j) x) = true ->
  l_occluded (ps_store (pass_prefix thr store entries k) x) = true.
Proof.
  intros Hjk H. induction Hjk as [|k Hjk IH]; [exact H|].
  rewrite pass_prefix_S. apply process_entry_mono. exact IH.
Qed.

Lemma pass_prefix_placed_before thr store entries j k x :
  (j <= k)%nat -> l_occluded (ps_store (pass_prefix thr store entries k) x) = false ->
  l_occluded (ps_store (pass_prefix thr store entries j) x) = false.
Proof.
  intros Hjk H. destruct (l_occluded (ps_store (pass_prefix thr store entries j) x)) eqn:E;
    [|reflexivity].
  rewrite (pass_prefix_mono thr store entries j k x Hjk E) in H. discriminate.
Qed.

Lemma pass_prefix_groups_mono thr store entries j k g x :
  (j <= k)%nat -> In x (ps_groups (pass_prefix thr store entries j) g) ->
  In x (ps_groups (pass_prefix thr store entries k) g).
Proof.
  intros Hjk H. induction Hjk as [|k Hjk IH]; [exact H|].
  rewrite pass_prefix_S. apply process_entry_groups_mono. exact IH.
Qed.

(** The iteration [j] finds the label of the [j]-th entry. *)
Lemma pass_prefix_entry thr store entries j e :
  nth_error entries j = Some e ->
  exists e', nth_error (ps_entries (pass_prefix thr store entries j)) j = Some e' /\
             le_label e' = le_label e.
Proof.
  intros H. destruct (pass_prefix_inv thr store entries j) as [_ [Hm _]].
  pose proof (f_equal (fun l => nth_error l j) Hm) as Hx. cbv beta in Hx.
  rewrite !nth_error_map, H in Hx.
  destruct (nth_error (ps_entries _) j) as [e'|]; simpl in Hx; [|discriminate].
  exists e'. split; [reflexivity|]. injection Hx as Hx. exact Hx.
Qed.

Lemma existsb_ext_in {A} (f g : A -> bool) (l : list A) :
  (forall x, In x l -> f x = g x) -> existsb f l = existsb g l.
Proof.
  induction l as [|x xs IH]; intros H; simpl; [reflexivity|].
  rewrite (H x (or_introl eq_refl)), IH; [reflexivity|].
  intros y Hy. apply H. right. exact Hy.
Qed.

Lemma withinRepeatDistance_keeps (s s0 : Store) groups (l l0 : Label) :
  (forall x, keeps (s x) (s0 x)) -> keeps l l0 ->
  withinRepeatDistance s groups l = withinRepeatDistance s0 groups l0.
Proof.
  intros Hs [Ho [_ Hc]]. unfold withinRepeatDistance. rewrite Ho, Hc.
  apply existsb_ext_in. intros x _. destruct (Hs x) as [_ [_ Hx]]. rewrite Hx. reflexivity.
Qed.

Lemma nth_error_lt {A} (l : list A) n x : nth_error l n = Some x -> (n < length l)%nat.
Proof. intros H. apply nth_error_Some. rewrite H. discriminate. Qed.

(** The repeat-distance test of iteration [k], read on the labels as they
    came in: when it holds, the label ends the pass occluded. *)
Lemma repeat_test_occludes thr store entries k ek :
  nth_error entries k = Some ek ->
  (Qltb 0 (repeatDistance (l_options (store (le_label ek)))) &&
   withinRepeatDistance store (ps_groups (pass_prefix thr store entries k)) (store (le_label ek)))
  = true ->
  l_occluded (ps_store (handleOcclusions thr store entries) (le_label ek)) = true.
Proof.
  intros Hk Hc.
  destruct (l_occluded (ps_store (handleOcclusions thr store entries) (le_label ek))) eqn:E;
    [reflexivity|exfalso].
  rewrite handleOcclusions_pass_prefix in E.
  pose proof (nth_error_lt _ _ _ Hk) as Hlt.
  apply (pass_prefix_placed_before thr store entries (S k)) in E; [|exact Hlt].
  destruct (pass_prefix_entry thr store entries k ek Hk) as [e' [He' Hl]].
  destruct (pass_prefix_inv thr store entries k) as [Hs _].
  rewrite pass_prefix_S, <- Hl in E.
  destruct (process_entry_placed thr _ k e' He' E) as [Hc' _].
  rewrite Hl in Hc'.
  rewrite (withinRepeatDistance_keeps _ store _ _ (store (le_label ek)) Hs (Hs _)) in Hc'.
  destruct (Hs (le_label ek)) as [Ho _]. rewrite Ho in Hc'. congruence.
Qed.

(** C3 (corrected): two placed labels of one repeat group can be closer
    than the repeat distance of the one placed first: the test of
    [withinRepeatDistance] uses the repeat distance of the label under
    placement only. In frame 3 the first sprite (repeat distance 100) and
    the second (repeat distance 10), 50 apart in group 7, are both placed. *)
Lemma C3_repeat_distance_counterexample :
  let st := handleOcclusions 2 store3 entries3 in
  l_occluded (ps_store st 0%nat) = false /\ l_occluded (ps_store st 1%nat) = false /\
  repeatGroup (l_options (store3 0%nat)) = repeatGroup (l_options (store3 1%nat)) /\
  repeatDistance (l_options (store3 0%nat)) = 100 /\
  distance2 (l_screenCenter (store3 1%nat)) (l_screenCenter (store3 0%nat)) = 2500 /\
  Qltb 2500 (100 * 100) = true.
Proof. vm_compute. repeat split. Qed.

(** C3, amended: after the pass, when the entries [i < j] of one repeat
    group, both with a positive repeat distance, are both placed, the
    distance between their screen centers is at least the repeat distance
    of the later one ([j]): [rd_j^2 <= |c_j - c_i|^2]. And a label whose
    repeat group, when its turn comes, holds a label within its own repeat
    distance ends the pass occluded. *)
Theorem C3_repeat_distance thr store entries i j ea eb :
  nth_error entries i = Some ea -> nth_error entries j = Some eb -> (i < j)%nat ->
  let a := le_label ea in
  let b := le_label eb in
  let st := handleOcclusions thr store entries in
  l_occluded (ps_store st a) = false -> l_occluded (ps_store st b) = false ->
  repeatGroup (l_options (store a)) = repeatGroup (l_options (store b)) ->
  0 < repeatDistance (l_options (store a)) -> 0 < repeatDistance (l_options (store b)) ->
  repeatDistance (l_options (store b)) * repeatDistance (l_options (store b))
    <= distance2 (l_screenCenter (store b)) (l_screenCenter (store a)) /\
  (forall k ek, nth_error entries k = Some ek ->
     (Qltb 0 (repeatDistance (l_options (store (le_label ek)))) &&
      withinRepeatDistance store (ps_groups (pass_prefix thr store entries k))
        (store (le_label ek))) = true ->
     l_occluded (ps_store st (le_label ek)) = true).
Proof.
  intros Hi Hj Hij. cbv zeta. intros Ha Hb Hg Hra Hrb.
  split; [|intros k ek Hk Hc; exact (repeat_test_occludes thr store entries k ek Hk Hc)].
  rewrite handleOcclusions_pass_prefix in Ha, Hb.
  pose proof (nth_error_lt _ _ _ Hj) as Hjl.
  (* [a] joined its group at its own iteration [i]. *)
  apply (pass_prefix_placed_before thr store entries (S i)) in Ha; [|lia].
  destruct (pass_prefix_entry thr store entries i ea Hi) as [ea' [Hea' Hla]].
  destruct (pass_prefix_inv thr store entries i) as [Hsi _].
  rewrite pass_prefix_S, <- Hla in Ha.
  destruct (process_entry_placed thr _ i ea' Hea' Ha) as [_ Hreg].
  rewrite Hla in Hreg. destruct (Hsi (le_label ea)) as [Hoa _]. rewrite Hoa in Hreg.
  specialize (Hreg (Qltb_true _ _ Hra)). rewrite <- pass_prefix_S, Hg in Hreg.
  apply (pass_prefix_groups_mono thr store entries (S i) j) in Hreg; [|lia].
  (* [b] passed the repeat-distance test at its iteration [j]. *)
  apply (pass_prefix_placed_before thr store entries (S j)) in Hb; [|lia].
  destruct (pass_prefix_entry thr store entries j eb Hj) as [eb' [Heb' Hlb]].
  destruct (pass_prefix_inv thr store entries j) as [Hsj _].
  rewrite pass_prefix_S, <- Hlb in Hb.
  destruct (process_entry_placed thr _ j eb' Heb' Hb) as [Htest _].
  rewrite Hlb in Htest.
  rewrite (withinRepeatDistance_keeps _ store _ _ (store (le_label eb)) Hsj (Hsj _)) in Htest.
  destruct (Hsj (le_label eb)) as [Hob _]. rewrite Hob, (Qltb_true _ _ Hrb) in Htest.
  simpl in Htest. unfold withinRepeatDistance in Htest.
  destruct (Qltb (distance2 (l_screenCenter (store (le_label eb)))
                            (l_screenCenter (store (le_label ea))))
                 (repeatDistance (l_options (store (le_label eb))) *
                  repeatDistance (l_options (store (le_label eb))))) eqn:Hd.
  - exfalso.
    assert (Hex : existsb
              (fun ll => Qltb (distance2 (l_screenCenter (store (le_label eb)))
                                         (l_screenCenter (store ll)))
                              (repeatDistance (l_options (store (le_label eb))) *
                               repeatDistance (l_options (store (le_label eb)))))
              (ps_groups (pass_prefix thr store entries j)
                 (repeatGroup (l_options (store (le_label eb))))) = true)
      by (apply existsb_exists; exists (le_label ea); split; [exact Hreg|exact Hd]).
    congruence.
  - apply Qltb_false. exact Hd.
Qed.

(** Witness of C3: the spec's scenario, repeat distance 120 at x = 100,
    200 and 350; the first and the third are placed, 250 apart. *)
Lemma C3_repeat_distance_witness :
  120 * 120 <= distance2 (V2 350 300) (V2 100 300).
Proof.
  refine (proj1 (C3_repeat_distance 2 store3b entries3b 0 2 (sentry store3b 0 100)
                   (sentry store3b 2 350) eq_refl eq_refl _ _ _ _ _ _)).
  - lia.
  - vm_compute. reflexivity.
  - vm_compute. reflexivity.
  - reflexivity.
  - reflexivity.
  - reflexivity.
Defined.




(** C9: the [TextLabel] constructor sets [options.repeatDistance] to 0,
    whatever the options it is given. No code of labels.cpp or
    textLabel.cpp changes a label's options afterwards, so any label that
    carries the options of a constructed text label (whatever its state,
    screen center or occlusion) fails the [repeatDistance > 0] test of the
    pass, and the pass never adds it to a repeat group. *)
Theorem C9_textLabel_never_in_repeat_group (w0 w1 : vec2) (type : LabelType) (o : Options)
        (attrib : FontAttrib) (dim : vec2) (quads : list GlyphQuad)
        (textRanges : list Range) (pref : Align) :
  let l := TextLabel_ctor w0 w1 type o attrib dim quads textRanges pref in
  repeatDistance (l_options l) = 0 /\
  (forall store groups l',
     l_options l' = l_options l ->
     (Qltb 0 (repeatDistance (l_options l')) && withinRepeatDistance store groups l') = false) /\
  (forall thr store entries lid g,
     l_options (store lid) = l_options l ->
     ~ In lid (ps_groups (handleOcclusions thr store entries) g)).
Proof.
  cbv zeta.
  assert (H0 : repeatDistance (l_options (TextLabel_ctor w0 w1 type o attrib dim quads
                                            textRanges pref)) = 0).
  { unfold TextLabel_ctor. rewrite (proj1 (keeps_applyAnchor _ _ _)). reflexivity. }
  split; [exact H0|split].
  - intros store groups l' Ho. rewrite Ho, H0. reflexivity.
  - intros thr store entries lid g Hs Hin.
    destruct (pass_prefix_inv thr store entries (length entries)) as [_ [_ Hg]].
    rewrite handleOcclusions_pass_prefix in Hin.
    destruct (Hg g lid Hin) as [Hq _]. rewrite Hs, H0 in Hq. discriminate.
Qed.

(** * Further properties of the code *)

Lemma Qltb_irrefl (x : Q) : Qltb x x = false.
Proof. unfold Qltb. rewrite (proj2 (Qle_bool_iff x x) (Qle_refl x)). reflexivity. Qed.

Lemma Qltb_asym (x y : Q) : Qltb x y = true -> Qltb y x = false.
Proof.
  intros H. apply Qltb_true_lt in H. unfold Qltb.
  rewrite (proj2 (Qle_bool_iff x y) (Qlt_le_weak _ _ H)). reflexivity.
Qed.

Lemma Qsq_nonneg (x : Q) : 0 <= x * x.
Proof.
  destruct (Qlt_le_dec x 0) as [H|H].
  - setoid_replace (x * x) with ((- x) * (- x)) by ring.
    apply Qmult_le_0_compat; apply (Qopp_le_compat x 0); apply Qlt_le_weak; exact H.
  - apply Qmult_le_0_compat; exact H.
Qed.

Lemma distance2_nonneg (a b : vec2) : 0 <= distance2 a b.
Proof.
  unfold distance2. apply (Qplus_le_compat 0 _ 0 _ (Qsq_nonneg _) (Qsq_nonneg _)).
Qed.

(** ** The comparator *)

(** [labelComparator] is irreflexive: no entry sorts before itself. *)
Theorem labelComparator_irreflexive (store : Store) (a : LabelEntry) :
  labelComparator store a a = false.
Proof.
  unfold labelComparator. cbv zeta.
  rewrite Bool.eqb_reflx, N.eqb_refl. cbn [negb].
  destruct (le_tile a) as [t|]; [|reflexivity].
  rewrite Z.eqb_refl, !Bool.eqb_reflx. cbn [negb].
  destruct (LabelType_eqb _ line && LabelType_eqb _ line); [apply Qltb_irrefl|].
  rewrite N.eqb_refl. cbn [negb].
  destruct (l_type (store (le_label a))), (l_variant (store (le_label a)));
    first [apply Qltb_irrefl | apply Nat.ltb_irrefl].
Qed.


(** [labelComparator] is asymmetric: two entries are never each before the
    other. *)
Theorem labelComparator_asymmetric (store : Store) (a b : LabelEntry) :
  labelComparator store a b = true -> labelComparator store b a = false.
Proof.
  unfold labelComparator. cbv zeta. intros H.
  destruct (le_proxy a), (le_proxy b); cbn [Bool.eqb negb] in *; try congruence.
  all: rewrite (N.eqb_sym (le_priority b));
       destruct (N.eqb (le_priority a) (le_priority b)) eqn:Ep; cbn [negb] in *;
       [| apply N.eqb_neq in Ep; apply N.ltb_lt in H; apply N.ltb_ge; lia].
  all: destruct (le_tile a) as [ta|], (le_tile b) as [tb|]; try congruence.
  all: rewrite (Z.eqb_sym (tz (tileID tb)));
       destruct (Z.eqb (tz (tileID ta)) (tz (tileID tb))) eqn:Ez; cbn [negb] in *;
       [| apply Z.eqb_neq in Ez; apply Z.gtb_lt in H; unfold Z.gtb;
          destruct (Z.compare_spec (tz (tileID tb)) (tz (tileID ta))); lia ].
  all: set (l1 := store (le_label a)) in *; set (l2 := store (le_label b)) in *.
  all: destruct (l_occludedLastFrame l1), (l_occludedLastFrame l2); cbn [Bool.eqb negb] in *;
       try congruence.
  all: destruct (visibleState (l_state l1)), (visibleState (l_state l2));
       cbn [Bool.eqb negb] in *; try congruence.
  all: rewrite (andb_comm (LabelType_eqb (l_type l2) line));
       destruct (LabelType_eqb (l_type l1) line && LabelType_eqb (l_type l2) line);
       [apply Qltb_asym; exact H|].
  all: rewrite (N.eqb_sym (hash l2));
       destruct (N.eqb (hash l1) (hash l2)) eqn:Eh; cbn [negb] in *;
       [| apply N.eqb_neq in Eh; apply N.ltb_lt in H; apply N.ltb_ge; lia].
  all: destruct (l_type l1), (l_variant l1), (l_type l2), (l_variant l2);
       first [ apply Qltb_asym; exact H
             | apply Nat.ltb_lt in H; apply Nat.ltb_ge; lia ].
Qed.

Lemma labelComparator_asymmetric_witness :
  labelComparator store2 eA2 eB2 = true /\ labelComparator store2 eB2 eA2 = false.
Proof.
  split; [vm_compute; reflexivity|].
  apply labelComparator_asymmetric. vm_compute. reflexivity.
Defined.

(** The first keys of [labelComparator]: an entry of a non-proxy tile
    comes before an entry of a proxy tile; otherwise the lower priority
    value comes first; then an entry with a tile comes before one without
    (a marker), two entries without a tile are never ordered, whatever
    their labels; and of two tiles the higher zoom comes first. *)
Theorem labelComparator_first_keys (store : Store) (a b : LabelEntry) :
  (le_proxy a = false -> le_proxy b = true -> labelComparator store a b = true) /\
  (le_proxy a = le_proxy b -> (le_priority a < le_priority b)%N ->
   labelComparator store a b = true) /\
  (le_proxy a = le_proxy b -> le_priority a = le_priority b ->
   le_tile b = None -> labelComparator store a b = match le_tile a with Some _ => true | None => false end) /\
  (forall ta tb, le_proxy a = le_proxy b -> le_priority a = le_priority b ->
   le_tile a = Some ta -> le_tile b = Some tb -> (tz (tileID tb) < tz (tileID ta))%Z ->
   labelComparator store a b = true).
Proof.
  unfold labelComparator. cbv zeta.
  split; [intros Ha Hb; rewrite Ha, Hb; reflexivity|].
  split; [intros Hp Hlt; rewrite Hp, Bool.eqb_reflx;
          rewrite (proj2 (N.eqb_neq _ _) (N.lt_neq _ _ Hlt)); apply N.ltb_lt; exact Hlt|].
  split; [intros Hp Hq Hb; rewrite Hp, Bool.eqb_reflx, Hq, N.eqb_refl, Hb;
          destruct (le_tile a); reflexivity|].
  intros ta tb Hp Hq Ha Hb Hz. rewrite Hp, Bool.eqb_reflx, Hq, N.eqb_refl, Ha, Hb.
  rewrite (proj2 (Z.eqb_neq _ _) (not_eq_sym (Z.lt_neq _ _ Hz))).
  apply Z.gtb_lt. exact Hz.
Qed.

(** ** The repeat-distance test *)

(** [withinRepeatDistance] is false when the label's repeat group holds no
    label (a group not yet in [m_repeatGroups]) and when its repeat
    distance is 0: no squared distance is below 0. *)
Theorem withinRepeatDistance_empty_or_zero (store : Store) (groups : N -> list nat) (l : Label) :
  (groups (repeatGroup (l_options l)) = [] -> withinRepeatDistance store groups l = false) /\
  (repeatDistance (l_options l) == 0 -> withinRepeatDistance store groups l = false).
Proof.
  unfold withinRepeatDistance. split.
  - intros H. rewrite H. reflexivity.
  - intros H0. destruct (existsb _ _) eqn:E; [|reflexivity].
    apply existsb_exists in E. destruct E as [x [_ Hx]].
    apply Qltb_true_lt in Hx. rewrite H0 in Hx.
    exfalso. apply (Qlt_not_le _ _ Hx). apply distance2_nonneg.
Qed.

(** [TextLabel::worldLineLength2] is never negative, and is 0 for a label
    that is not a line label. *)
Theorem worldLineLength2_nonneg (l : Label) :
  0 <= worldLineLength2 l /\
  (LabelType_eqb (l_type l) line = false -> worldLineLength2 l = 0).
Proof.
  unfold worldLineLength2. split.
  - destruct (l_variant l); [|apply Qle_refl|apply Qle_refl].
    destruct (LabelType_eqb _ _); [|apply Qle_refl].
    unfold length2. apply (Qplus_le_compat 0 _ 0 _ (Qsq_nonneg _) (Qsq_nonneg _)).
  - intros H. rewrite H. destruct (l_variant l); reflexivity.
Qed.

(** ** The occlusion pass *)

Lemma update_nth_app {A} (f : A -> A) (l1 l2 : list A) (x : A) :
  update_nth f (length l1) (l1 ++ x :: l2) = l1 ++ f x :: l2.
Proof. induction l1 as [|y ys IH]; simpl; [reflexivity|rewrite IH; reflexivity]. Qed.

Lemma update_nth_update_nth {A} (f g : A -> A) (i : nat) (l : list A) :
  update_nth f i (update_nth g i l) = update_nth (fun x => f (g x)) i l.
Proof.
  revert i; induction l as [|x xs IH]; intros [|i]; simpl; try reflexivity. rewrite IH. reflexivity.
Qed.

(** The entries of the pass in any iteration carry the labels they came
    in with, and the labels of the store outside the entries and their
    parents are the ones it started from. *)
Lemma process_entry_frame thr store entries st x :
  pass_inv store entries st ->
  ~ In x (map le_label entries) ->
  (forall y, In y (map le_label entries) -> l_parent (store y) <> Some x) ->
  forall i, ps_store st x = store x -> ps_store (process_entry thr st i) x = store x.
Proof.
  intros [Hk [He _]] Hx Hp i H.
  destruct (nth_error (ps_entries st) i) as [e|] eqn:Hn;
    [|unfold process_entry; rewrite Hn; exact H].
  assert (Hin : In (le_label e) (map le_label entries))
    by (rewrite <- He; apply in_map; eapply nth_error_In; exact Hn).
  assert (Hne : x <> le_label e) by (intros E; subst x; contradiction).
  pose proof (label_after_repeat_test_keeps st (ps_store st (le_label e))) as Hk1.
  open_entry Hn e.
  - cbn [ps_store]. rewrite store_set_neq by exact Hne. exact H.
  - assert (Hk2 : keeps l2 (store (le_label e))).
    { eapply keeps_trans; [eapply anchor_loop_keeps_eq; exact Ea|].
      eapply keeps_trans; [exact Hk1|apply Hk]. }
    destruct Hk2 as [_ [Hpar _]].
    assert (Hs : store_set (ps_store st) (le_label e) l2 x = store x)
      by (rewrite store_set_neq by exact Hne; exact H).
    destruct (l_occluded l2); cbn [ps_store]; [|exact Hs].
    destruct (l_parent l2) as [p|] eqn:Ep; [destruct (required _)|]; try exact Hs.
    rewrite store_set_neq; [exact Hs|].
    intros E; subst p. apply (Hp _ Hin). congruence.
Qed.

(** [handleOcclusions] changes only the labels of [m_labels] and their
    parents: any other label of the store is left as it was. *)
Theorem handleOcclusions_frame thr store entries x :
  ~ In x (map le_label entries) ->
  (forall y, In y (map le_label entries) -> l_parent (store y) <> Some x) ->
  ps_store (handleOcclusions thr store entries) x = store x.
Proof.
  intros Hx Hp. rewrite handleOcclusions_pass_prefix.
  induction (length entries) as [|j IH]; [reflexivity|].
  rewrite pass_prefix_S. apply (process_entry_frame thr store entries); [apply pass_prefix_inv|exact Hx|exact Hp|exact IH].
Qed.

Lemma handleOcclusions_frame_witness :
  ~ In 5%nat (map le_label entries4) /\
  ps_store (handleOcclusions 0 store4 entries4) 5%nat = store4 5%nat.
Proof.
  split; [simpl; lia|].
  apply handleOcclusions_frame; [simpl; lia|].
  intros y Hy. simpl in Hy. destruct Hy as [<-|[<-|[<-|[]]]]; simpl; congruence.
Defined.

Lemma process_entry_entries thr st i :
  map (set_le_obbs (MkRange 0 0)) (ps_entries (process_entry thr st i)) =
  map (set_le_obbs (MkRange 0 0)) (ps_entries st).
Proof.
  destruct (nth_error (ps_entries st) i) as [e|] eqn:Hn;
    [|unfold process_entry; rewrite Hn; reflexivity].
  open_entry Hn e; [reflexivity|].
  assert (Hm : map (set_le_obbs (MkRange 0 0))
                 (update_nth (set_le_obbs (MkRange (length (ps_obbs st)) (length cur2))) i
                    (update_nth (set_le_obbs (MkRange (length (ps_obbs st))
                       (length (label_obbs thr (ps_store st (le_label e)) (le_transform e))))) i
                       (ps_entries st))) = map (set_le_obbs (MkRange 0 0)) (ps_entries st))
    by (rewrite !map_update_nth; reflexivity).
  destruct (l_occluded l2); exact Hm.
Qed.

(** [handleOcclusions] keeps [m_labels] as it is, entry for entry (label,
    tile, proxy flag, priority and transform slice, in the same order): it
    only sets the OBB ranges. *)
Theorem handleOcclusions_entries thr store entries :
  map (set_le_obbs (MkRange 0 0)) (ps_entries (handleOcclusions thr store entries)) =
  map (set_le_obbs (MkRange 0 0)) entries.
Proof.
  rewrite handleOcclusions_pass_prefix.
  induction (length entries) as [|j IH]; [reflexivity|].
  rewrite pass_prefix_S, process_entry_entries. exact IH.
Qed.

(** A label whose parent is occluded when its turn comes is occluded and
    stays so to the end of the pass: [handleOcclusions] skips it. *)
Theorem handleOcclusions_parent_occluded thr store entries j e p :
  nth_error entries j = Some e ->
  l_parent (store (le_label e)) = Some p ->
  l_occluded (ps_store (pass_prefix thr store entries j) p) = true ->
  l_occluded (ps_store (handleOcclusions thr store entries) (le_label e)) = true.
Proof.
  intros Hj Hp Ho.
  rewrite handleOcclusions_pass_prefix.
  apply (pass_prefix_mono thr store entries (S j)); [exact (nth_error_lt _ _ _ Hj)|].
  destruct (pass_prefix_entry thr store entries j e Hj) as [e' [He' Hl]].
  destruct (pass_prefix_inv thr store entries j) as [Hk _].
  destruct (Hk (le_label e)) as [_ [Hpar _]].
  rewrite pass_prefix_S, <- Hl. rewrite <- Hl in Hpar, Hp.
  unfold process_entry. rewrite He'. cbv zeta.
  rewrite Hpar, Hp, Ho. cbn [ps_store]. rewrite store_set_eq. reflexivity.
Qed.

Lemma handleOcclusions_parent_occluded_witness :
  l_occluded (ps_store (pass_prefix 0 store4 entries5 2) 1%nat) = true /\
  l_occluded (ps_store (handleOcclusions 0 store4 entries5) 2%nat) = true.
Proof.
  split; [vm_compute; reflexivity|].
  apply (handleOcclusions_parent_occluded 0 store4 entries5 2
           (LabelEntry_ctor store4 2 None false [V2 100 100; V2 1 0]) 1);
    [reflexivity|reflexivity|vm_compute; reflexivity].
Defined.

(** The pass never clears an occlusion: a label occluded after the first
    [j] iterations (by its own test, as the parent of a required label, or
    because it came in occluded) is occluded when the pass ends. *)
Theorem handleOcclusions_occlusion_kept thr store entries j x :
  (j <= length entries)%nat ->
  l_occluded (ps_store (pass_prefix thr store entries j) x) = true ->
  l_occluded (ps_store (handleOcclusions thr store entries) x) = true.
Proof.
  intros Hj H. rewrite handleOcclusions_pass_prefix.
  exact (pass_prefix_mono thr store entries j _ x Hj H).
Qed.

Lemma handleOcclusions_occlusion_kept_witness :
  l_occluded (ps_store (pass_prefix 0 store4 entries5 2) 1%nat) = true /\
  l_occluded (ps_store (handleOcclusions 0 store4 entries5) 1%nat) = true.
Proof.
  split; [vm_compute; reflexivity|].
  apply (handleOcclusions_occlusion_kept 0 store4 entries5 2 1); [simpl; lia|vm_compute; reflexivity].
Defined.

(** *** The layout of the OBB arena *)

Lemma entry_obbs_app (arena x : list OBB) (e : LabelEntry) :
  r_length (le_obbs e) = 0%nat \/
  (r_start (le_obbs e) + r_length (le_obbs e) <= length arena)%nat ->
  entry_obbs (arena ++ x) e = entry_obbs arena e.
Proof.
  unfold entry_obbs. intros [H|H]; [rewrite H; reflexivity|].
  rewrite skipn_app. replace (r_start (le_obbs e) - length arena)%nat with 0%nat by lia.
  rewrite firstn_app, length_skipn.
  replace (r_length (le_obbs e) - (length arena - r_start (le_obbs e)))%nat with 0%nat by lia.
  simpl. apply app_nil_r.
Qed.

Lemma entry_obbs_empty (arena : list OBB) (e : LabelEntry) :
  r_length (le_obbs e) = 0%nat -> entry_obbs arena e = [].
Proof. unfold entry_obbs. intros H. rewrite H. reflexivity. Qed.

Lemma arena_inv_step j es arena e cur :
  nth_error es j = Some e -> arena_inv j es arena ->
  arena_inv (S j) (update_nth (set_le_obbs (MkRange (length arena) (length cur))) j es)
            (arena ++ cur).
Proof.
  intros Hn [Hb [Hc Hd]].
  destruct (nth_error_split es j Hn) as [pre [post [Hes Hlen]]]. subst es j.
  rewrite update_nth_app.
  assert (He0 : r_length (le_obbs e) = 0%nat)
    by (apply (Hb (length pre)); [lia|exact Hn]).
  assert (Hpost : forall y, In y post -> r_length (le_obbs y) = 0%nat).
  { intros y Hy. destruct (In_nth_error _ _ Hy) as [k Hk].
    apply (Hb (length pre + S k)%nat); [lia|].
    rewrite nth_error_app2 by lia. replace (length pre + S k - length pre)%nat with (S k) by lia.
    exact Hk. }
  split; [|split].
  - intros k y Hk Hy.
    rewrite nth_error_app2 in Hy by lia.
    destruct (k - length pre)%nat as [|k'] eqn:Ek; [lia|].
    apply Hpost. eapply nth_error_In. exact Hy.
  - intros y Hy. apply in_app_or in Hy. rewrite length_app.
    destruct Hy as [Hy|[Hy|Hy]].
    + destruct (Hc y (in_or_app _ _ _ (or_introl Hy))) as [H|H]; [left; exact H|right; lia].
    + subst y. right. simpl. lia.
    + left. apply Hpost. exact Hy.
  - rewrite map_app in Hd |- *. rewrite concat_app in Hd |- *. cbn [map concat] in Hd |- *.
    rewrite (entry_obbs_empty _ e He0) in Hd.
    assert (Hq : forall l, (forall y, In y l -> r_length (le_obbs y) = 0%nat) ->
                 forall a, concat (map (entry_obbs a) l) = []).
    { intros l Hl a. induction l as [|y ys IH]; [reflexivity|].
      cbn [map concat]. rewrite (entry_obbs_empty _ y (Hl y (or_introl eq_refl))), IH;
        [reflexivity|]. intros z Hz. apply Hl. right. exact Hz. }
    rewrite (Hq post Hpost) in Hd |- *. rewrite app_nil_r in Hd |- *. simpl in Hd.
    assert (Hpre : concat (map (entry_obbs (arena ++ cur)) pre) =
                   concat (map (entry_obbs arena) pre)).
    { f_equal. apply map_ext_in. intros y Hy. apply entry_obbs_app.
      apply Hc. apply in_or_app. left. exact Hy. }
    rewrite Hpre, Hd. f_equal.
    unfold entry_obbs. cbn [le_obbs set_le_obbs r_start r_length].
    rewrite skipn_app, skipn_all, Nat.sub_diag. simpl. apply firstn_all.
Qed.

Lemma process_entry_arena thr st j :
  arena_inv j (ps_entries st) (ps_obbs st) ->
  arena_inv (S j) (ps_entries (process_entry thr st j)) (ps_obbs (process_entry thr st j)).
Proof.
  intros H.
  assert (Hw : forall es arena, arena_inv j es arena -> arena_inv (S j) es arena)
    by (intros es arena [Hb Hr]; split; [intros k e Hk; apply Hb; lia|exact Hr]).
  destruct (nth_error (ps_entries st) j) as [e|] eqn:Hn;
    [|unfold process_entry; rewrite Hn; apply Hw; exact H].
  open_entry Hn e; [apply Hw; exact H|].
  rewrite update_nth_update_nth.
  assert (Hs : arena_inv (S j)
                 (update_nth (set_le_obbs (MkRange (length (ps_obbs st)) (length cur2))) j
                             (ps_entries st)) (ps_obbs st ++ cur2))
    by (apply arena_inv_step with (e := e); assumption).
  destruct (l_occluded l2); exact Hs.
Qed.

(** The OBB arena [m_obbs] that [handleOcclusions] builds is made of the
    slices of the entries, in the order of [m_labels], when the entries come
    in with an empty OBB range (as [processLabelUpdate] makes them): the
    [LabelOBBs] of the mesh update see each OBB of the arena once, under its
    own entry. *)
Theorem handleOcclusions_arena thr store entries :
  Forall (fun e => r_length (le_obbs e) = 0%nat) entries ->
  let st := handleOcclusions thr store entries in
  concat (map (entry_obbs (ps_obbs st)) (ps_entries st)) = ps_obbs st.
Proof.
  intros H0. cbv zeta. rewrite handleOcclusions_pass_prefix.
  assert (Hi : forall j, arena_inv j (ps_entries (pass_prefix thr store entries j))
                                   (ps_obbs (pass_prefix thr store entries j))).
  { induction j as [|j IH].
    - rewrite Forall_forall in H0. split; [|split].
      + intros k e _ Hk. apply H0. eapply nth_error_In. exact Hk.
      + intros e He. left. apply H0. exact He.
      + cbn. induction entries as [|e es IH]; [reflexivity|].
        cbn [map concat]. rewrite entry_obbs_empty by (apply H0; left; reflexivity).
        apply IH. intros y Hy. apply H0. right. exact Hy.
    - rewrite pass_prefix_S. apply process_entry_arena. exact IH. }
  apply Hi.
Qed.

Lemma handleOcclusions_arena_witness :
  Forall (fun e => r_length (le_obbs e) = 0%nat) entries4 /\
  let st := handleOcclusions 0 store4 entries4 in
  concat (map (entry_obbs (ps_obbs st)) (ps_entries st)) = ps_obbs st.
Proof. split; [repeat constructor|apply handleOcclusions_arena; repeat constructor]. Defined.

(** ** textLabel.cpp *)

(** [TextLabel::applyAnchor] forgets the anchor applied before: the text
    range, the anchor offset and the rest of the label depend on the last
    anchor only, so the anchor fallback of [nextAnchor] does not accumulate
    offsets. *)
Theorem applyAnchor_last_wins (pd : option vec2) (a b : Anchor) (l : Label) :
  applyAnchor pd a (applyAnchor pd b l) = applyAnchor pd a l.
Proof.
  destruct l as [v ty o dim par st al oc olf ai anc sc].
  destruct v as [t| |os cp]; [destruct t|reflexivity|reflexivity]. reflexivity.
Qed.

(** The text range [TextLabel::applyAnchor] selects is a non-empty range of
    [m_textRanges], or else range 0: the lookup of [m_textRangeIndex] in
    [addVerticesToMesh] never reads past the ranges unless range 0 itself
    is missing. *)
Theorem applyAnchor_textRange (pd : option vec2) (a : Anchor) (l : Label) :
  match l_variant (applyAnchor pd a l) with
  | TextV t => t_textRangeIndex t = 0%nat \/
               (t_textRangeIndex t < length (t_textRanges t) /\
                r_length (range_at (t_textRanges t) (t_textRangeIndex t)) <> 0)%nat
  | SpriteV | CurvedV _ _ => True
  end.
Proof.
  destruct l as [v ty o dim par st al oc olf ai anc sc].
  destruct v as [t| |]; [|exact I|exact I].
  unfold applyAnchor.
  cbn [l_variant set_anchor set_variant t_textRangeIndex t_textRanges set_textRangeIndex].
  set (idx := if Align_eqb _ Anone then _ else _).
  destruct (Nat.eqb (r_length (range_at (t_textRanges t) idx)) 0) eqn:E; [left; reflexivity|right].
  apply Nat.eqb_neq in E. split; [|exact E].
  destruct (Nat.lt_ge_cases idx (length (t_textRanges t))) as [H|H]; [exact H|].
  exfalso. apply E. unfold range_at. rewrite nth_overflow by exact H. reflexivity.
Qed.

(** [TextLabel::updateScreenTransform] either fails, leaving the label as
    it was and pushing no point, or succeeds, pushing the two points of a
    [PointTransform] (position and rotation) and changing only the label's
    screen center. *)
Theorem updateScreenTransform_result (proj : vec2 -> vec2 * bool) (len : vec2 -> Q) (l : Label) :
  let '(ok, l', tr) := updateScreenTransform proj len l in
  if ok then length tr = 2%nat /\ l' = set_screenCenter (l_screenCenter l') l
  else l' = l /\ tr = [].
Proof.
  unfold updateScreenTransform.
  destruct (l_variant l) as [t| |]; [|split; reflexivity|split; reflexivity].
  destruct (l_type l).
  - destruct (proj (t_world0 t)) as [sp c]. destruct c; split; reflexivity.
  - destruct (proj (t_world0 t)) as [ap0 c0]. destruct (proj (t_world1 t)) as [ap2 c2].
    destruct (false || c0 || c2); [split; reflexivity|].
    destruct (Qltb _ _); [split; reflexivity|].
    destruct (proj (vscale _ _)) as [sp c]. split; reflexivity.
  - split; reflexivity.
  - destruct (proj (t_world0 t)) as [sp c]. destruct c; split; reflexivity.
Qed.

Lemma map_tv_uv_combine (F : (Z * Z) * GlyphVertex -> TextVertex) (g : GlyphVertex -> Z * Z)
      (l : list GlyphVertex) :
  (forall p v, tv_uv (F (p, v)) = gv_uv v) ->
  map tv_uv (map F (combine (map g l) l)) = map gv_uv l.
Proof. intros H. induction l as [|v vs IH]; simpl; [reflexivity|rewrite H, IH; reflexivity]. Qed.

Lemma map_tv_pos_combine (F : (Z * Z) * GlyphVertex -> TextVertex) (g : GlyphVertex -> Z * Z)
      (l : list GlyphVertex) :
  (forall p v, tv_pos (F (p, v)) = p) ->
  map tv_pos (map F (combine (map g l) l)) = map g l.
Proof. intros H. induction l as [|v vs IH]; simpl; [reflexivity|rewrite H, IH; reflexivity]. Qed.

(** Each quad [TextLabel::addVerticesToMesh] pushes is a glyph quad of the
    label's selected text range, pushed to the mesh of the glyph's atlas,
    with the glyph's texture coordinates; all its vertices carry the label's
    vertex state; one of its vertices lies strictly inside the screen
    expanded by the label height; and the label is in a visible state. *)
Theorem addVerticesToMesh_quads (l : Label) (tr : list vec2) (ss : vec2) (t : TextData)
        (atlas : nat) (vs : list TextVertex) :
  l_variant l = TextV t ->
  In (atlas, vs) (addVerticesToMesh l tr ss) ->
  let rng := range_at (t_textRanges t) (t_textRangeIndex t) in
  let fa := t_fontAttrib t in
  let state := MkTVState (fa_selectionColor fa) (fa_fill fa) (fa_stroke fa)
                         (f2u16 (l_alpha l * alpha_scale)) (f2u16 (fa_fontScale fa)) in
  let mn := (f2i16 (- vy (l_dim l) * position_scale), f2i16 (- vy (l_dim l) * position_scale)) in
  let mx := (f2i16 ((vx ss + vy (l_dim l)) * position_scale),
             f2i16 ((vy ss + vy (l_dim l)) * position_scale)) in
  visibleState (l_state l) = true /\
  exists q, In q (firstn (r_length rng) (skipn (r_start rng) (t_quads t))) /\
    atlas = gq_atlas q /\ map tv_uv vs = map gv_uv (gq_quad q) /\
    (forall v, In v vs -> tv_state v = state) /\
    existsb (vertex_inside mn mx) (map tv_pos vs) = true.
Proof.
  intros Hv H. unfold addVerticesToMesh in H. rewrite Hv in H.
  destruct (visibleState (l_state l)) eqn:Evis; [|contradiction]. cbn [negb] in H.
  cbv zeta in H |- *. split; [reflexivity|].
  apply in_flat_map in H. destruct H as [q [Hq Hin]].
  destruct (negb (existsb _ _)) eqn:Ex in Hin; [contradiction|].
  destruct Hin as [Heq|[]]. injection Heq as <- <-.
  exists q. split; [exact Hq|]. split; [reflexivity|]. split; [|split].
  - apply map_tv_uv_combine. reflexivity.
  - intros v Hvs. apply in_map_iff in Hvs. destruct Hvs as [[p gv] [<- _]]. reflexivity.
  - rewrite map_tv_pos_combine by reflexivity.
    destruct (existsb _ _); [reflexivity|discriminate].
Qed.

Lemma addVerticesToMesh_quads_witness :
  let m := nth 0 (addVerticesToMesh Frames.P4 [V2 100 100; V2 1 0] viewport) (0%nat, []) in
  In m (addVerticesToMesh Frames.P4 [V2 100 100; V2 1 0] viewport) /\
  visibleState (l_state Frames.P4) = true.
Proof.
  cbv zeta. split; [vm_compute; left; reflexivity|].
  apply (proj1 (addVerticesToMesh_quads Frames.P4 [V2 100 100; V2 1 0] viewport text0
           (fst (nth 0 (addVerticesToMesh Frames.P4 [V2 100 100; V2 1 0] viewport) (0%nat, [])))
           (snd (nth 0 (addVerticesToMesh Frames.P4 [V2 100 100; V2 1 0] viewport) (0%nat, [])))
           eq_refl ltac:(vm_compute; left; reflexivity))).
Defined.

Lemma length_flat_map_le1 {A B} (f : A -> list B) (l : list A) :
  (forall x, length (f x) <= 1)%nat -> (length (flat_map f l) <= length l)%nat.
Proof.
  intros H. induction l as [|x xs IH]; simpl; [lia|].
  rewrite length_app. specialize (H x). lia.
Qed.

(** [TextLabel::addVerticesToMesh] pushes at most one quad per glyph of
    the selected text range. *)
Theorem addVerticesToMesh_count (l : Label) (tr : list vec2) (ss : vec2) :
  (length (addVerticesToMesh l tr ss) <=
   match l_variant l with
   | TextV t => r_length (range_at (t_textRanges t) (t_textRangeIndex t))
   | SpriteV | CurvedV _ _ => 0
   end)%nat.
Proof.
  unfold addVerticesToMesh. destruct (l_variant l) as [t| |]; [|simpl; lia|simpl; lia].
  destruct (negb _); [simpl; lia|]. cbv zeta.
  eapply Nat.le_trans; [|apply firstn_le_length].
  apply length_flat_map_le1. intros q. destruct (negb _); simpl; lia.
Qed.

(** For an alpha in [0, 1], the [uint16_t(m_alpha * alpha_scale)] of the
    vertex state does not wrap: it is the truncated product, in
    [0, 65535]. *)
Theorem f2u16_alpha (a : Q) :
  0 <= a -> a <= 1 ->
  f2u16 (a * alpha_scale) = Qtrunc (a * alpha_scale) /\
  (0 <= Qtrunc (a * alpha_scale) <= 65535)%Z.
Proof.
  intros H0 H1.
  assert (L : 0 <= a * alpha_scale)
    by (apply Qmult_le_0_compat; [exact H0|unfold alpha_scale; discriminate]).
  assert (U : a * alpha_scale <= 65535).
  { setoid_replace (65535 : Q) with (1 * alpha_scale) by reflexivity.
    apply Qmult_le_compat_r; [exact H1|unfold alpha_scale; discriminate]. }
  unfold f2u16, Qtrunc. destruct (a * alpha_scale) as [n d].
  unfold Qle in L, U. cbn [Qnum Qden] in L, U |- *.
  assert (Hb : (0 <= Z.quot n (Z.pos d) <= 65535)%Z).
  { rewrite Z.quot_div_nonneg by lia. split; [apply Z.div_pos; lia|].
    apply Z.div_le_upper_bound; lia. }
  split; [apply Z.mod_small; lia|exact Hb].
Qed.

Lemma f2u16_alpha_witness :
  f2u16 ((1#2) * alpha_scale) = Qtrunc ((1#2) * alpha_scale).
Proof. apply (proj1 (f2u16_alpha (1#2) ltac:(vm_compute; discriminate) ltac:(vm_compute; discriminate))). Defined.

(** ** labels.cpp: selection and transitions *)

Lemma State_eqb_eq (a b : State) : State_eqb a b = true <-> a = b.
Proof. destruct a, b; simpl; split; intros H; congruence. Qed.

(** [Labels::skipTransitions(styles, tile, proxy)] calls
    [skipTransitions] on a label [l0] exactly when, for some style where
    both the tile's and the proxy's meshes are label sets, [l0] is a label
    of the tile's set that can occlude and is in state [none], and some
    label [l1] of the proxy's set is in a visible state, can occlude, has
    [l0]'s repeat group and lies within [max(dim.x, dim.y)] of [l0]. *)
Theorem skipTransitions_tile_marks (sqrt : Q -> Q) (store : Store)
        (meshes : list (option (list nat) * option (list nat))) (l0 : nat) :
  In l0 (skipTransitions_tile sqrt store meshes) <->
  exists l0s l1s, In (Some l0s, Some l1s) meshes /\ In l0 l0s /\
    canOcclude (store l0) = true /\ l_state (store l0) = none /\
    exists l1, In l1 l1s /\ skip_match sqrt store l0 l1 = true.
Proof.
  unfold skipTransitions_tile, skipTransitions_set. rewrite in_flat_map. split.
  - intros [[m0 m1] [Hm H]].
    destruct m0 as [l0s|], m1 as [l1s|]; try contradiction.
    apply in_flat_map in H. destruct H as [x [Hx H]].
    destruct (canOcclude (store x)) eqn:Ec; [|contradiction].
    destruct (State_eqb (l_state (store x)) none) eqn:Es; [|contradiction].
    cbn [negb] in H. apply in_flat_map in H. destruct H as [l1 [Hl1 H]].
    destruct (skip_match sqrt store x l1) eqn:Em; [|contradiction].
    destruct H as [<-|[]].
    exists l0s, l1s. split; [exact Hm|]. split; [exact Hx|]. split; [exact Ec|].
    split; [apply State_eqb_eq; exact Es|]. exists l1. split; [exact Hl1|exact Em].
  - intros [l0s [l1s [Hm [Hx [Ec [Es [l1 [Hl1 Em]]]]]]]].
    exists (Some l0s, Some l1s). split; [exact Hm|].
    apply in_flat_map. exists l0. split; [exact Hx|].
    rewrite Ec, Es. cbn [negb State_eqb].
    apply in_flat_map. exists l1. split; [exact Hl1|]. rewrite Em. left. reflexivity.
Qed.

(** [Labels::getLabel] returns the label and tile of the first entry of
    [m_selectionLabels] whose label is in a visible state and has the
    selection color, and [{nullptr, nullptr}] exactly when there is none. *)
Theorem getLabel_first (selectionColor : Label -> N) (store : Store) (sel : list LabelEntry)
        (c : N) :
  let hit e := visibleState (l_state (store (le_label e))) &&
               N.eqb (selectionColor (store (le_label e))) c in
  (getLabel selectionColor store sel c = None <-> forall e, In e sel -> hit e = false) /\
  (forall lid t, getLabel selectionColor store sel c = Some (lid, t) ->
   exists pre e post, sel = pre ++ e :: post /\ (forall e', In e' pre -> hit e' = false) /\
                      hit e = true /\ lid = le_label e /\ t = le_tile e).
Proof.
  cbv zeta. induction sel as [|e rest [IHn IHs]]; cbn [getLabel].
  - split; [split; [intros _ e []|reflexivity]|intros lid t H; discriminate].
  - destruct (visibleState _ && _) eqn:Eh.
    + split.
      * split; [discriminate|]. intros H. rewrite (H e (or_introl eq_refl)) in Eh. discriminate.
      * intros lid t H. injection H as <- <-.
        exists [], e, rest. split; [reflexivity|]. split; [intros e' []|].
        split; [exact Eh|split; reflexivity].
    + split.
      * rewrite IHn. split.
        -- intros H e' [<-|He']; [exact Eh|apply H; exact He'].
        -- intros H e' He'. apply H. right. exact He'.
      * intros lid t H. destruct (IHs lid t H) as [pre [e1 [post [Hs [Hp [He1 [Hl Ht]]]]]]].
        exists (e :: pre), e1, post. split; [rewrite Hs; reflexivity|].
        split; [|split; [exact He1|split; [exact Hl|exact Ht]]].
        intros e' [<-|He']; [exact Eh|apply Hp; exact He'].
Qed.
